(** * Geohash codec: a shallow embedding of [geohash.go] and its properties

    The Go package encodes a point (latitude, longitude) as an integer
    or base-32 string geohash and decodes it back to a bounding box.

    Conventions of the embedding:
    - the target is amd64: [int] and [uint] are 64 bits wide;
    - [uint32], [uint64] and [uint] values are integers of [Z] inside
      their range; every operation that can leave the range has its
      wrap-around written out ([wrap32], [wrap64]);
    - Go shifts by a count of 64 or more give 0 ([shl64], [shr64]);
    - [float64] values are [spec_float]s of the standard library at
      precision 53 and maximal exponent 1024 (IEEE 754 binary64,
      round to nearest even, no fused operations);
    - a Go [string] is a [string] of bytes; a run-time panic is [None].

    The definitions come first, in the order of the source; the
    properties follow: the bit interleaver, the alphabet codec and the
    string hashes, exact float64 arithmetic, bounding boxes, and the
    range codec. *)

From Stdlib Require Import ZArith Lia List Bool String Ascii.
From Stdlib Require Import Floats.SpecFloat.
Import ListNotations.
Local Open Scope Z_scope.

(** ** Machine integers *)

Definition wrap32 (x : Z) : Z := x mod 2 ^ 32.
Definition wrap64 (x : Z) : Z := x mod 2 ^ 64.

(** [x << s] and [x >> s] on [uint64], the count [s] being unsigned. *)
Definition shl64 (x s : Z) : Z :=
  if 64 <=? s then 0 else wrap64 (Z.shiftl x s).

Definition shr64 (x s : Z) : Z :=
  if 64 <=? s then 0 else Z.shiftr x s.

(** ** Bit interleaver *)

(** One rung of the shift-and-mask ladders of [spread] and [squash]:
    [(X | (X << s)) & m] and [(X | (X >> s)) & m]. *)
Definition step_l (s m x : Z) : Z := Z.land (Z.lor x (shl64 x s)) m.
Definition step_r (s m x : Z) : Z := Z.land (Z.lor x (shr64 x s)) m.

Definition spread (x : Z) : Z :=
  let X := x in
  let X := Z.land (Z.lor X (shl64 X 16)) 0x0000ffff0000ffff in
  let X := Z.land (Z.lor X (shl64 X 8)) 0x00ff00ff00ff00ff in
  let X := Z.land (Z.lor X (shl64 X 4)) 0x0f0f0f0f0f0f0f0f in
  let X := Z.land (Z.lor X (shl64 X 2)) 0x3333333333333333 in
  let X := Z.land (Z.lor X (shl64 X 1)) 0x5555555555555555 in
  X.

Definition interleave (x y : Z) : Z :=
  Z.lor (spread x) (shl64 (spread y) 1).

Definition squash (X : Z) : Z :=
  let X := Z.land X 0x5555555555555555 in
  let X := Z.land (Z.lor X (shr64 X 1)) 0x3333333333333333 in
  let X := Z.land (Z.lor X (shr64 X 2)) 0x0f0f0f0f0f0f0f0f in
  let X := Z.land (Z.lor X (shr64 X 4)) 0x00ff00ff00ff00ff in
  let X := Z.land (Z.lor X (shr64 X 8)) 0x0000ffff0000ffff in
  let X := Z.land (Z.lor X (shr64 X 16)) 0x00000000ffffffff in
  wrap32 X.

Definition deinterleave (X : Z) : Z * Z :=
  (squash X, squash (shr64 X 1)).

(** A function on words that commutes with bitwise or; the shifts and
    masks of the ladders are such functions. *)
Definition lor_hom (f : Z -> Z) : Prop :=
  f 0 = 0 /\ forall a b, f (Z.lor a b) = Z.lor (f a) (f b).


(** ** float64 arithmetic

    IEEE 754 binary64 through the standard library's executable
    specification [SpecFloat]; all operations round to nearest, ties
    to even, as Go's float64 operations do. *)

Definition prec : Z := 53.
Definition emax : Z := 1024.

Definition float64 : Type := spec_float.

Definition fadd : float64 -> float64 -> float64 := SFadd prec emax.
Definition fsub : float64 -> float64 -> float64 := SFsub prec emax.
Definition fmul : float64 -> float64 -> float64 := SFmul prec emax.
Definition fdiv : float64 -> float64 -> float64 := SFdiv prec emax.
Definition fle : float64 -> float64 -> bool := SFleb.

(** The float64 nearest to the integer [z]: the integer constants of
    the source ([2], [90], [180], [360]) and the conversion
    [float64(X)] of an unsigned word, which is exact below [2^53]. *)
Definition f64 (z : Z) : float64 := binary_normalize prec emax z 0 false.

(** The float64 nearest to the rational [1 / d], for [d > 0]. *)
Definition f64_inv (d : Z) : float64 :=
  let '(q, e, l) := SFdiv_core_binary prec emax 1 0 d 0 in
  binary_round_aux prec emax false q e l.

(** The numerator of a finite float: its value is [signed s m * 2^e]. *)
Definition signed (s : bool) (m : positive) : Z :=
  if s then Zneg m else Zpos m.

(** Integer part of a finite float: toward zero, downward, upward. *)
Definition trunc (f : float64) : option Z :=
  match f with
  | S754_zero _ => Some 0
  | S754_finite s m e =>
      let a := Z.shiftl (Zpos m) e in Some (if s then - a else a)
  | _ => None
  end.


Definition ceiling (f : float64) : option Z :=
  match f with
  | S754_zero _ => Some 0
  | S754_finite s m e => Some (- Z.shiftl (- signed s m) e)
  | _ => None
  end.

(** [uint32(f)] for a float64 [f]. Go leaves the result to the
    implementation when the integer part of [f] does not fit; this is
    the amd64 compiler's conversion: to a signed 64-bit integer
    (CVTTSD2SQ, which yields 0x8000000000000000 on NaN, infinities and
    overflow), then the low 32 bits. *)
Definition int64_of (t : option Z) : Z :=
  match t with
  | Some t => if (- 2 ^ 63 <=? t) && (t <? 2 ^ 63) then t else - 2 ^ 63
  | None => - 2 ^ 63
  end.

Definition int64_of_float (f : float64) : Z := int64_of (trunc f).

Definition uint32_of_float (f : float64) : Z := wrap32 (int64_of_float f).

(** [int(x)] for a [uint] [x]: reinterpretation as a signed word. *)
Definition int_of_uint (x : Z) : Z :=
  let y := wrap64 x in if y <? 2 ^ 63 then y else y - 2 ^ 64.

(** Signed 64-bit wrap-around of an [int] result. *)
Definition wrap_int (x : Z) : Z := int_of_uint x.

(** *** Functions of Go's [math] package used by the source *)

(** [math.Exp2(32)], the constant [exp232] of the source: exactly 2^32. *)
Definition exp232 : float64 := f64 (2 ^ 32).

(** [math.Ldexp(frac, exp)]: [frac * 2^exp], correctly rounded. *)
Definition Ldexp (frac : float64) (e : Z) : float64 := SFldexp prec emax frac e.

(** [math.Ceil]: the least integer-valued float not below [f]; a
    result of zero keeps the sign of [f]; zeros, infinities and NaN
    are returned unchanged. *)
Definition Ceil (f : float64) : float64 :=
  match f with
  | S754_finite s _ _ =>
      match ceiling f with
      | Some 0 => S754_zero s
      | Some c => f64 c
      | None => f
      end
  | _ => f
  end.

(** [int(math.Floor(math.Log10(r)))] for a finite [r > 0]: the
    integer [k] with [10^k <= r < 10^(k+1)], found by scaling the
    fraction [num / den = r] by powers of ten. [math.Log10] is
    taken at its mathematical value; the floor of Go's rounded result
    is this [k] for every [r] that is not within rounding distance of
    a power of ten, which the cell widths [180 / 2^n] and [360 / 2^n]
    never are. *)
Fixpoint log10_up (fuel : nat) (num den k : Z) : Z :=
  match fuel with
  | O => k
  | S fuel' =>
      if den * 10 <=? num then log10_up fuel' num (den * 10) (k + 1) else k
  end.

Fixpoint log10_down (fuel : nat) (num den k : Z) : Z :=
  match fuel with
  | O => k
  | S fuel' =>
      if den <=? num * 10 then k - 1 else log10_down fuel' (num * 10) den (k - 1)
  end.

Definition floor_log10 (m : positive) (e : Z) : Z :=
  let num := Zpos m * 2 ^ Z.max e 0 in
  let den := 2 ^ Z.max (- e) 0 in
  if den <=? num then log10_up 400 num den 0 else log10_down 400 num den 0.

(** [math.Pow10(n)], by the tables of the Go library: [pow10tab] holds
    [1e0 .. 1e31], [pow10postab32] holds [1e0, 1e32, .. 1e288] and
    [pow10negtab32] holds [1e-0, 1e-32, .. 1e-320], each the float64
    nearest to the power of ten. *)
Definition pow10tab (i : Z) : float64 := f64 (10 ^ i).
Definition pow10postab32 (j : Z) : float64 := f64 (10 ^ (32 * j)).
Definition pow10negtab32 (j : Z) : float64 := f64_inv (10 ^ (32 * j)).

Definition Pow10 (n : Z) : float64 :=
  if (0 <=? n) && (n <=? 308) then
    fmul (pow10postab32 (n / 32)) (pow10tab (n mod 32))
  else if (-323 <=? n) && (n <=? 0) then
    fdiv (pow10negtab32 (- n / 32)) (pow10tab (- n mod 32))
  else if 0 <? n then S754_infinity false
  else S754_zero false.

(** ** Range codec *)

Definition encodeRange (x r : float64) : Z :=
  let p := fdiv (fadd x r) (fmul (f64 2) r) in
  uint32_of_float (fmul p exp232).

Definition decodeRange (X : Z) (r : float64) : float64 :=
  let p := fdiv (f64 X) exp232 in
  let x := fsub (fmul (fmul (f64 2) r) p) r in
  x.



(** ** Integer geohash *)

Definition encodeInt (lat lng : float64) : Z :=
  let latInt := encodeRange lat (f64 90) in
  let lngInt := encodeRange lng (f64 180) in
  interleave latInt lngInt.

(** Modelled from the spec: the source only declares [EncodeInt]
    (its body is supplied per architecture, outside the given files).
    The spec (section 4.4) defines it as the interleaving of the two
    axis codes, which is [encodeInt], named by the source as the
    default implementation of [EncodeInt]. *)
Definition EncodeInt (lat lng : float64) : Z := encodeInt lat lng.

Definition EncodeIntWithPrecision (lat lng : float64) (bits : Z) : Z :=
  let hash := EncodeInt lat lng in
  shr64 hash (wrap64 (64 - bits)).

(** ** Boxes *)

Record Box : Type := mkBox {
  MinLat : float64;
  MaxLat : float64;
  MinLng : float64;
  MaxLng : float64
}.

Definition Center (b : Box) : float64 * float64 :=
  (fdiv (fadd (MinLat b) (MaxLat b)) (f64 2),
   fdiv (fadd (MinLng b) (MaxLng b)) (f64 2)).

Definition Contains (b : Box) (lat lng : float64) : bool :=
  fle (MinLat b) lat && fle lat (MaxLat b) &&
  fle (MinLng b) lng && fle lng (MaxLng b).

(** For an [r] that is not a positive finite number, [math.Log10]
    gives an infinity or NaN, whose conversion to [int] is the least
    integer on amd64, and [Pow10] of that is 0. *)
Definition maxDecimalPower (r : float64) : float64 :=
  match r with
  | S754_finite false m e => Pow10 (floor_log10 m e)
  | _ => Pow10 (- 2 ^ 63)
  end.

Definition Round (b : Box) : float64 * float64 :=
  let x := maxDecimalPower (fsub (MaxLat b) (MinLat b)) in
  let lat := fmul (Ceil (fdiv (MinLat b) x)) x in
  let x := maxDecimalPower (fsub (MaxLng b) (MinLng b)) in
  let lng := fmul (Ceil (fdiv (MinLng b) x)) x in
  (lat, lng).

Definition errorWithPrecision (bits : Z) : float64 * float64 :=
  let b := int_of_uint bits in
  let latBits := Z.quot b 2 in
  let lngBits := b - latBits in
  let latErr := Ldexp (f64 180) (- latBits) in
  let lngErr := Ldexp (f64 360) (- lngBits) in
  (latErr, lngErr).

Definition BoundingBoxIntWithPrecision (hash bits : Z) : Box :=
  let fullHash := shl64 hash (wrap64 (64 - bits)) in
  let '(latInt, lngInt) := deinterleave fullHash in
  let lat := decodeRange latInt (f64 90) in
  let lng := decodeRange lngInt (f64 180) in
  let '(latErr, lngErr) := errorWithPrecision bits in
  {| MinLat := lat;
     MaxLat := fadd lat latErr;
     MinLng := lng;
     MaxLng := fadd lng lngErr |}.

Definition BoundingBoxInt (hash : Z) : Box :=
  BoundingBoxIntWithPrecision hash 64.

Definition DecodeIntWithPrecision (hash bits : Z) : float64 * float64 :=
  let box := BoundingBoxIntWithPrecision hash bits in
  Round box.

Definition DecodeInt (hash : Z) : float64 * float64 :=
  DecodeIntWithPrecision hash 64.

(** ** Values of floats

    A float64 is valid when its mantissa and exponent are in the
    canonical binary64 form. The value of a finite valid float is a
    multiple of [2^-1074]; [val] is that multiple, so that the order
    and the exactness of operations are statements over [Z]. The
    infinities stand beyond every finite value. *)
Definition valid (x : float64) : bool := valid_binary prec emax x.

Definition is_finite (x : float64) : bool :=
  match x with
  | S754_zero _ | S754_finite _ _ _ => true
  | _ => false
  end.

Definition is_nan (x : float64) : bool :=
  match x with S754_nan => true | _ => false end.

Definition val (x : float64) : Z :=
  match x with
  | S754_zero _ => 0
  | S754_nan => 0
  | S754_infinity s => if s then - 2 ^ 2100 else 2 ^ 2100
  | S754_finite s m e => signed s m * 2 ^ (e + 1074)
  end.

(** The record of a mantissa with no bits shifted out yet. *)
Definition exact_record (m : positive) : shr_record :=
  {| shr_m := Zpos m; shr_r := false; shr_s := false |}.

(** [X] with its [a] low bits cleared: the part of an axis code that a
    hash of lower precision keeps. *)
Definition clear_low (X a : Z) : Z := Z.shiftl (Z.shiftr X a) a.



(** ** Base-32 alphabet codec *)

(** [len(s)] of a Go string, an [int]. *)
Definition len (s : string) : Z := Z.of_nat (String.length s).

(** [s[lo:]] for an unsigned index [lo]; out of range is a panic. *)
Fixpoint string_drop (n : nat) (s : string) : string :=
  match n, s with
  | O, _ => s
  | S n', String _ s' => string_drop n' s'
  | S _, EmptyString => EmptyString
  end.

Definition slice_from (lo : Z) (s : string) : option string :=
  if lo <=? len s then Some (string_drop (Z.to_nat lo) s) else None.


Module base32encoding.

(** Modelled from the spec: the alphabet codec [base32encoding] is code
    of the package that is not among the given files. Spec section
    4.3: the alphabet is [0123456789bcdefghjkmnpqrstuvwxyz], each
    symbol standing for the 5-bit value that is its index. *)
Definition alphabet : string := "0123456789bcdefghjkmnpqrstuvwxyz".

(** The symbol of a 5-bit value: [enc[v]]. *)
Definition symbol (v : Z) : ascii :=
  match String.get (Z.to_nat v) alphabet with
  | Some c => c
  | None => "0"%char
  end.

Fixpoint index_from (i : Z) (b : ascii) (s : string) : option Z :=
  match s with
  | EmptyString => None
  | String c s' => if Ascii.eqb b c then Some i else index_from (i + 1) b s'
  end.

(** Modelled from the spec: [ValidByte] is true exactly of the 32
    symbols of the alphabet (lower case only). *)
Definition ValidByte (b : ascii) : bool :=
  match index_from 0 b alphabet with Some _ => true | None => false end.

(** The 5-bit value of a symbol. The value of a byte outside the
    alphabet is not fixed by the spec; it is the marker 0xff here, and
    no property below uses it. *)
Definition value (b : ascii) : Z :=
  match index_from 0 b alphabet with Some v => v | None => 0xff end.

(** Modelled from the spec: [Encode] maps a 64-bit word to 12
    symbols, one per 5-bit group, the most significant group first.
    Which 60 bits it reads is fixed by the callers and tests in the
    source, against the wording of the spec (bits 63 down to 4):
    [EncodeWithPrecision] passes a hash that [EncodeIntWithPrecision]
    has shifted right to its [5 * chars] low bits and keeps the last
    [chars] symbols ([enc[12-chars:]]), and [TestConvertIntToString]
    feeds [hashInt >> (64 - bits)]. So the symbols are the groups of
    the low 60 bits, filled from the last symbol backwards. *)
Fixpoint Encode_loop (n : nat) (x : Z) (acc : string) : string :=
  match n with
  | O => acc
  | S n' => Encode_loop n' (shr64 x 5) (String (symbol (Z.land x 0x1f)) acc)
  end.

Definition Encode (x : Z) : string := Encode_loop 12 x EmptyString.

(** Modelled from the spec: [Decode] is the inverse mapping, symbol to
    5-bit value, concatenated most significant first. Where the bits
    sit is fixed by the callers and tests in the source: [BoundingBox]
    hands the decoded value to [BoundingBoxIntWithPrecision], which
    shifts it left by [64 - bits], and [TestConvertStringToInt]
    expects [hashInt >> (64 - bits)]. So each symbol is shifted in
    from the right and a decoded string is right-aligned. *)
Fixpoint Decode_loop (x : Z) (s : string) : Z :=
  match s with
  | EmptyString => x
  | String c s' => Decode_loop (Z.lor (shl64 x 5) (value c)) s'
  end.

Definition Decode (s : string) : Z := Decode_loop 0 s.

(** The wording of the spec for [Decode], taken literally: the decoded
    groups fill the word from bit 63 downward and leave a zero tail.
    Kept for comparison with [Decode]. *)
Definition Decode_left_justified (s : string) : Z :=
  shl64 (Decode s) (wrap64 (64 - 5 * len s)).

End base32encoding.

(** ** String geohash *)

Definition EncodeWithPrecision (lat lng : float64) (chars : Z) : option string :=
  let bits := wrap64 (5 * chars) in
  let inthash := EncodeIntWithPrecision lat lng bits in
  let enc := base32encoding.Encode inthash in
  slice_from (wrap64 (12 - chars)) enc.

Definition Encode (lat lng : float64) : option string :=
  EncodeWithPrecision lat lng 12.

Definition BoundingBox (hash : string) : Box :=
  let bits := wrap64 (wrap_int (5 * len hash)) in
  let inthash := base32encoding.Decode hash in
  BoundingBoxIntWithPrecision inthash bits.

(** The two errors of [Validate]: [errors.New("too long")] and
    [fmt.Errorf("invalid character %q", b)]; [nil] is [None]. *)
Inductive error : Type :=
| TooLong
| InvalidCharacter (b : ascii).

Fixpoint check_characters (hash : string) : option error :=
  match hash with
  | EmptyString => None
  | String b rest =>
      if negb (base32encoding.ValidByte b) then Some (InvalidCharacter b)
      else check_characters rest
  end.

Definition Validate (hash : string) : option error :=
  if 64 <? wrap_int (5 * len hash) then Some TooLong
  else check_characters hash.

Definition Decode (hash : string) : float64 * float64 :=
  let box := BoundingBox hash in
  Round box.

Definition DecodeCenter (hash : string) : float64 * float64 :=
  let box := BoundingBox hash in
  Center box.

Definition ConvertStringToInt (hash : string) : Z * Z :=
  (base32encoding.Decode hash, wrap64 (wrap_int (5 * len hash))).

Definition ConvertIntToString (hash chars : Z) : option string :=
  let enc := base32encoding.Encode hash in
  slice_from (wrap64 (12 - chars)) enc.

(** ** Specification-side notions *)

(** The symbols of a hash [h], from group [i] on: group [i] is the
    five bits of [h] below position [64 - 5 i]. *)
Fixpoint hash_symbols (h : Z) (i : Z) (n : nat) : string :=
  match n with
  | O => EmptyString
  | S n' =>
      String (base32encoding.symbol (Z.land (Z.shiftr h (59 - 5 * i)) 31))
             (hash_symbols h (i + 1) n')
  end.

(** A valid geohash string: every byte is a symbol of the alphabet. *)
Fixpoint valid_symbols (s : string) : bool :=
  match s with
  | EmptyString => true
  | String c s' => base32encoding.ValidByte c && valid_symbols s'
  end.

(** The first byte of [s] outside the alphabet, if any. *)
Fixpoint first_invalid (s : string) : option ascii :=
  match s with
  | EmptyString => None
  | String c s' => if base32encoding.ValidByte c then first_invalid s' else Some c
  end.

(** The number written by the symbols of [s] in base 32, most
    significant symbol first, continuing from [acc]. *)
Fixpoint base32_value (acc : Z) (s : string) : Z :=
  match s with
  | EmptyString => acc
  | String c s' => base32_value (32 * acc + base32encoding.value c) s'
  end.

(** Upper-case ASCII letters. *)
Definition is_upper (c : ascii) : bool :=
  let n := Z.of_nat (nat_of_ascii c) in (65 <=? n) && (n <=? 90).
(** * Properties *)

(** ** Bitwise reasoning: every word is the bitwise or of its bits *)

Lemma lor_hom_land m : lor_hom (fun x => Z.land x m).
Proof.
  split; [apply Z.land_0_l|]. intros a b. apply Z.land_lor_distr_l.
Qed.

Lemma wrap64_land x : wrap64 x = Z.land x (Z.ones 64).
Proof. unfold wrap64. now rewrite Z.land_ones by lia. Qed.

Lemma wrap32_land x : wrap32 x = Z.land x (Z.ones 32).
Proof. unfold wrap32. now rewrite Z.land_ones by lia. Qed.

Lemma lor_hom_wrap32 : lor_hom wrap32.
Proof.
  split; [reflexivity|]. intros a b.
  rewrite !wrap32_land. apply Z.land_lor_distr_l.
Qed.

Lemma lor_hom_shl64 s : lor_hom (fun x => shl64 x s).
Proof.
  unfold shl64. destruct (64 <=? s).
  - split; reflexivity.
  - split.
    + now rewrite Z.shiftl_0_l.
    + intros a b. rewrite !wrap64_land, Z.shiftl_lor. apply Z.land_lor_distr_l.
Qed.

Lemma lor_hom_shr64 s : lor_hom (fun x => shr64 x s).
Proof.
  unfold shr64. destruct (64 <=? s).
  - split; reflexivity.
  - split; [apply Z.shiftr_0_l|]. intros a b. apply Z.shiftr_lor.
Qed.

Lemma lor_hom_step_l s m : lor_hom (step_l s m).
Proof.
  unfold step_l.
  destruct (lor_hom_shl64 s) as [h0 hl]. split.
  - now rewrite h0.
  - intros a b. rewrite hl, <- Z.land_lor_distr_l. f_equal.
    apply Z.bits_inj'. intros n _. rewrite !Z.lor_spec.
    destruct (Z.testbit a n), (Z.testbit b n),
      (Z.testbit (shl64 a s) n), (Z.testbit (shl64 b s) n); reflexivity.
Qed.

Lemma lor_hom_step_r s m : lor_hom (step_r s m).
Proof.
  unfold step_r.
  destruct (lor_hom_shr64 s) as [h0 hl]. split.
  - now rewrite h0.
  - intros a b. rewrite hl, <- Z.land_lor_distr_l. f_equal.
    apply Z.bits_inj'. intros n _. rewrite !Z.lor_spec.
    destruct (Z.testbit a n), (Z.testbit b n),
      (Z.testbit (shr64 a s) n), (Z.testbit (shr64 b s) n); reflexivity.
Qed.

Lemma spread_steps x :
  spread x =
  step_l 1 0x5555555555555555 (step_l 2 0x3333333333333333
    (step_l 4 0x0f0f0f0f0f0f0f0f (step_l 8 0x00ff00ff00ff00ff
      (step_l 16 0x0000ffff0000ffff x)))).
Proof. reflexivity. Qed.

Lemma squash_steps X :
  squash X =
  wrap32 (step_r 16 0x00000000ffffffff (step_r 8 0x0000ffff0000ffff
    (step_r 4 0x00ff00ff00ff00ff (step_r 2 0x0f0f0f0f0f0f0f0f
      (step_r 1 0x3333333333333333 (Z.land X 0x5555555555555555)))))).
Proof. reflexivity. Qed.

Lemma lor_hom_spread : lor_hom spread.
Proof.
  pose proof lor_hom_step_l as L. split.
  - reflexivity.
  - intros a b. rewrite !spread_steps.
    now rewrite !(fun s m => proj2 (L s m)).
Qed.

Lemma lor_hom_squash : lor_hom squash.
Proof.
  pose proof lor_hom_step_r as R. split.
  - reflexivity.
  - intros a b. rewrite !squash_steps.
    rewrite (proj2 (lor_hom_land _)), !(fun s m => proj2 (R s m)).
    apply (proj2 lor_hom_wrap32).
Qed.

(** A property that holds of 0 and of every power of two below [2^n],
    and is kept by bitwise or, holds of every [n]-bit word. *)
Lemma lor_bits_ind (P : Z -> Prop) (n : nat) :
  P 0 ->
  (forall i, (i < n)%nat -> P (2 ^ Z.of_nat i)) ->
  (forall a b, P a -> P b -> P (Z.lor a b)) ->
  forall x, 0 <= x < 2 ^ Z.of_nat n -> P x.
Proof.
  intros H0 Hbit Hlor. induction n as [|n IH]; intros x Hx.
  - simpl in Hx. replace x with 0 by lia. exact H0.
  - assert (Hsplit : x = Z.lor (x mod 2 ^ Z.of_nat n)
                               (if Z.testbit x (Z.of_nat n) then 2 ^ Z.of_nat n else 0)).
    { apply Z.bits_inj'. intros k Hk. rewrite Z.lor_spec.
      destruct (Z.lt_ge_cases k (Z.of_nat n)) as [Hlt|Hge].
      - rewrite Z.mod_pow2_bits_low by lia.
        destruct (Z.testbit x (Z.of_nat n)).
        + rewrite Z.pow2_bits_false by lia. now rewrite orb_false_r.
        + rewrite Z.bits_0. now rewrite orb_false_r.
      - rewrite Z.mod_pow2_bits_high by lia. simpl.
        destruct (Z.eq_dec k (Z.of_nat n)) as [->|Hne].
        + destruct (Z.testbit x (Z.of_nat n)) eqn:E.
          * now rewrite Z.pow2_bits_true by lia.
          * now rewrite Z.bits_0.
        + assert (Hhi : Z.testbit x k = false).
          { rewrite <- (Z.mod_small x (2 ^ Z.of_nat (S n))) by lia.
            apply Z.mod_pow2_bits_high. lia. }
          rewrite Hhi. destruct (Z.testbit x (Z.of_nat n)).
          * apply eq_sym, Z.pow2_bits_false. lia.
          * now rewrite Z.bits_0. }
    rewrite Hsplit. apply Hlor.
    + apply IH.
      * intros i Hi. apply Hbit. lia.
      * apply Z.mod_pos_bound. lia.
    + destruct (Z.testbit x (Z.of_nat n)); [apply Hbit; lia | exact H0].
Qed.

Lemma wrap64_small x : 0 <= x < 2 ^ 64 -> wrap64 x = x.
Proof. intros. apply Z.mod_small. assumption. Qed.

Lemma wrap64_range x : 0 <= wrap64 x < 2 ^ 64.
Proof. apply Z.mod_pos_bound. lia. Qed.

Lemma wrap32_range x : 0 <= wrap32 x < 2 ^ 32.
Proof. apply Z.mod_pos_bound. lia. Qed.

Lemma testbit_high n x k : 0 <= x < 2 ^ n -> n <= k -> Z.testbit x k = false.
Proof.
  intros Hx Hk. assert (0 <= n).
  { destruct (Z.lt_ge_cases n 0) as [Hn|]; [|assumption].
    rewrite Z.pow_neg_r in Hx by assumption. lia. }
  rewrite <- (Z.mod_small x (2 ^ n)) by assumption.
  apply Z.mod_pow2_bits_high. lia.
Qed.

Lemma lor_range n a b :
  0 <= n -> 0 <= a < 2 ^ n -> 0 <= b < 2 ^ n -> 0 <= Z.lor a b < 2 ^ n.
Proof.
  intros Hn Ha Hb.
  assert (E : Z.lor a b = Z.lor a b mod 2 ^ n).
  { rewrite <- Z.land_ones, Z.land_lor_distr_l, !Z.land_ones by assumption.
    now rewrite !Z.mod_small by assumption. }
  rewrite E. apply Z.mod_pos_bound. lia.
Qed.

Lemma land_range a m : 0 <= m -> 0 <= Z.land a m <= m.
Proof.
  intros Hm.
  assert (Hx : 0 <= Z.land a m) by (apply Z.land_nonneg; now right).
  assert (Hy : 0 <= Z.land (Z.lnot a) m) by (apply Z.land_nonneg; now right).
  assert (Hor : Z.lor (Z.land a m) (Z.land (Z.lnot a) m) = m).
  { apply Z.bits_inj'. intros k Hk.
    rewrite Z.lor_spec, !Z.land_spec, Z.lnot_spec by assumption.
    destruct (Z.testbit a k), (Z.testbit m k); reflexivity. }
  assert (Hand : Z.land (Z.land a m) (Z.land (Z.lnot a) m) = 0).
  { apply Z.bits_inj'. intros k Hk.
    rewrite !Z.land_spec, Z.lnot_spec, Z.bits_0 by assumption.
    destruct (Z.testbit a k), (Z.testbit m k); reflexivity. }
  pose proof (Z.add_lor_land (Z.land a m) (Z.land (Z.lnot a) m)) as E.
  rewrite Hor, Hand in E. lia.
Qed.

(** ** The bits of [spread], [squash] and [interleave] *)

Lemma spread_pow2 (i : nat) :
  (i < 32)%nat -> spread (2 ^ Z.of_nat i) = 2 ^ (2 * Z.of_nat i).
Proof.
  intros Hi.
  do 32 (destruct i as [|i]; [vm_compute; reflexivity|]). lia.
Qed.

Lemma squash_pow2 (j : nat) :
  (j < 64)%nat ->
  squash (2 ^ Z.of_nat j) =
  if Z.even (Z.of_nat j) then 2 ^ (Z.of_nat j / 2) else 0.
Proof.
  intros Hj.
  do 64 (destruct j as [|j]; [vm_compute; reflexivity|]). lia.
Qed.

Lemma even_half j : Z.even j = true -> j = 2 * (j / 2).
Proof.
  intros E. apply Z.even_spec in E as [k ->].
  now rewrite Z.mul_comm, Z.div_mul, Z.mul_comm by lia.
Qed.

Lemma odd_half j : Z.even j = false -> j = 2 * (j / 2) + 1.
Proof.
  intros E. rewrite <- Z.negb_odd in E. apply negb_false_iff in E.
  apply Z.odd_spec in E as [k ->].
  rewrite Z.mul_comm, Z.div_add_l, Z.mul_comm by lia.
  replace (1 / 2) with 0 by reflexivity. lia.
Qed.

Lemma half_double i : 2 * i / 2 = i.
Proof. now rewrite Z.mul_comm, Z.div_mul by lia. Qed.

Lemma half_double_succ i : (2 * i + 1) / 2 = i.
Proof. symmetry. apply (Z.div_unique _ _ _ 1); lia. Qed.

Lemma even_double i : Z.even (2 * i) = true.
Proof. now rewrite Z.even_mul. Qed.

Lemma even_double_succ i : Z.even (2 * i + 1) = false.
Proof. now rewrite Z.even_add, Z.even_mul. Qed.

Lemma spread_bits x j :
  0 <= x < 2 ^ 32 -> 0 <= j ->
  Z.testbit (spread x) j = (j <? 64) && Z.even j && Z.testbit x (j / 2).
Proof.
  intros Hx. revert j.
  apply (lor_bits_ind
           (fun x => forall j, 0 <= j ->
              Z.testbit (spread x) j = (j <? 64) && Z.even j && Z.testbit x (j / 2))
           32); [| | |exact Hx].
  - intros j Hj. change (spread 0) with 0. rewrite !Z.bits_0.
    now rewrite andb_false_r.
  - intros i Hi j Hj. rewrite spread_pow2 by assumption.
    rewrite !Z.pow2_bits_eqb by (try apply Z.div_pos; lia).
    destruct (Z.even j) eqn:E.
    + apply even_half in E.
      destruct (Z.eqb_spec (2 * Z.of_nat i) j), (Z.ltb_spec j 64),
        (Z.eqb_spec (Z.of_nat i) (j / 2)); cbn [andb]; try reflexivity; lia.
    + apply odd_half in E. rewrite andb_false_r. cbn [andb].
      apply Z.eqb_neq. lia.
  - intros a b Ha Hb j Hj.
    rewrite (proj2 lor_hom_spread), !Z.lor_spec, Ha, Hb by assumption.
    now rewrite andb_orb_distrib_r.
Qed.

Lemma squash_bits H i :
  0 <= H < 2 ^ 64 -> 0 <= i ->
  Z.testbit (squash H) i = (i <? 32) && Z.testbit H (2 * i).
Proof.
  intros HH. revert i.
  apply (lor_bits_ind
           (fun H => forall i, 0 <= i ->
              Z.testbit (squash H) i = (i <? 32) && Z.testbit H (2 * i))
           64); [| | |exact HH].
  - intros i Hi. change (squash 0) with 0. rewrite !Z.bits_0.
    now rewrite andb_false_r.
  - intros j Hj i Hi. rewrite squash_pow2 by assumption.
    destruct (Z.even (Z.of_nat j)) eqn:E.
    + apply even_half in E.
      rewrite !Z.pow2_bits_eqb by (try apply Z.div_pos; lia).
      destruct (Z.eqb_spec (Z.of_nat j / 2) i), (Z.ltb_spec i 32),
        (Z.eqb_spec (Z.of_nat j) (2 * i)); cbn [andb]; try reflexivity; lia.
    + apply odd_half in E. rewrite Z.bits_0, Z.pow2_bits_eqb by lia.
      destruct (Z.eqb_spec (Z.of_nat j) (2 * i)); [lia|].
      now rewrite andb_false_r.
  - intros a b Ha Hb i Hi.
    rewrite (proj2 lor_hom_squash), !Z.lor_spec, Ha, Hb by assumption.
    now rewrite andb_orb_distrib_r.
Qed.

Lemma spread_range x : 0 <= spread x < 2 ^ 63.
Proof.
  rewrite spread_steps.
  set (a := step_l 2 _ _). unfold step_l.
  pose proof (land_range (Z.lor a (shl64 a 1)) 0x5555555555555555).
  lia.
Qed.

Lemma interleave_range x y : 0 <= interleave x y < 2 ^ 64.
Proof.
  unfold interleave. apply lor_range; [lia| |].
  - pose proof (spread_range x). lia.
  - unfold shl64. simpl. apply wrap64_range.
Qed.

Lemma interleave_bits x y j :
  0 <= x < 2 ^ 32 -> 0 <= y < 2 ^ 32 -> 0 <= j < 64 ->
  Z.testbit (interleave x y) j =
  if Z.even j then Z.testbit x (j / 2) else Z.testbit y (j / 2).
Proof.
  intros Hx Hy Hj. unfold interleave, shl64.
  change (64 <=? 1) with false. cbv iota. rewrite Z.lor_spec.
  pose proof (spread_range y) as Hs.
  rewrite wrap64_small by (rewrite Z.shiftl_mul_pow2 by lia; lia).
  rewrite spread_bits by (assumption || lia).
  destruct (Z.ltb_spec j 64); [|lia]. cbn [andb].
  destruct (Z.even j) eqn:E.
  - apply even_half in E as E'. cbn [andb].
    destruct (Z.eq_dec j 0) as [->|Hne].
    + rewrite Z.shiftl_spec_low by lia. now rewrite orb_false_r.
    + rewrite Z.shiftl_spec by lia.
      rewrite spread_bits by (assumption || lia).
      replace (Z.even (j - 1)) with false.
      * now rewrite andb_false_r, orb_false_r.
      * rewrite Z.even_sub, E. reflexivity.
  - cbn [andb orb]. apply odd_half in E as E'.
    rewrite Z.shiftl_spec by lia.
    rewrite spread_bits by (assumption || lia).
    destruct (Z.ltb_spec (j - 1) 64); [|lia].
    replace (Z.even (j - 1)) with true by (rewrite Z.even_sub, E; reflexivity).
    cbn [andb]. f_equal.
    replace (j - 1) with ((j / 2) * 2) by lia.
    now rewrite Z.div_mul by lia.
Qed.

Lemma deinterleave_interleave x y :
  0 <= x < 2 ^ 32 -> 0 <= y < 2 ^ 32 ->
  deinterleave (interleave x y) = (x, y).
Proof.
  intros Hx Hy. unfold deinterleave.
  pose proof (interleave_range x y) as Hr.
  f_equal; apply Z.bits_inj'; intros i Hi.
  - rewrite squash_bits by assumption.
    destruct (Z.ltb_spec i 32); cbn [andb].
    + rewrite interleave_bits by (assumption || lia).
      now rewrite even_double, half_double.
    + symmetry. apply (testbit_high 32); assumption.
  - unfold shr64. change (64 <=? 1) with false. cbv iota.
    rewrite squash_bits; [| |assumption].
    2:{ rewrite Z.shiftr_div_pow2 by lia. split.
        - apply Z.div_pos; lia.
        - apply Z.div_lt_upper_bound; lia. }
    destruct (Z.ltb_spec i 32); cbn [andb].
    + rewrite Z.shiftr_spec by lia.
      rewrite interleave_bits by (assumption || lia).
      now rewrite even_double_succ, half_double_succ.
    + symmetry. apply (testbit_high 32); assumption.
Qed.

Lemma interleave_deinterleave_bits_aux x y :
  0 <= x < 2 ^ 32 -> 0 <= y < 2 ^ 32 ->
  forall i, 0 <= i < 32 ->
    Z.testbit (interleave x y) (2 * i) = Z.testbit x i /\
    Z.testbit (interleave x y) (2 * i + 1) = Z.testbit y i.
Proof.
  intros Hx Hy i Hi. split.
  - rewrite interleave_bits by (assumption || lia).
    now rewrite even_double, half_double.
  - rewrite interleave_bits by (assumption || lia).
    now rewrite even_double_succ, half_double_succ.
Qed.

(** C1: [deinterleave] undoes [interleave] on every pair of 32-bit
    words, and [interleave x y] carries bit [i] of [x] at the even
    position [2i] and bit [i] of [y] at the odd position [2i+1] of a
    64-bit result. *)
Theorem interleave_deinterleave_roundtrip x y :
  0 <= x < 2 ^ 32 -> 0 <= y < 2 ^ 32 ->
  deinterleave (interleave x y) = (x, y) /\
  0 <= interleave x y < 2 ^ 64 /\
  forall i, 0 <= i < 32 ->
    Z.testbit (interleave x y) (2 * i) = Z.testbit x i /\
    Z.testbit (interleave x y) (2 * i + 1) = Z.testbit y i.
Proof.
  intros Hx Hy. split; [|split].
  - now apply deinterleave_interleave.
  - apply interleave_range.
  - now apply interleave_deinterleave_bits_aux.
Qed.

Lemma interleave_deinterleave_roundtrip_witness :
  (0 <= 0xdeadbeef < 2 ^ 32 /\ 0 <= 0x0badf00d < 2 ^ 32) /\
  deinterleave (interleave 0xdeadbeef 0x0badf00d) = (0xdeadbeef, 0x0badf00d) /\
  0 <= interleave 0xdeadbeef 0x0badf00d < 2 ^ 64 /\
  forall i, 0 <= i < 32 ->
    Z.testbit (interleave 0xdeadbeef 0x0badf00d) (2 * i) = Z.testbit 0xdeadbeef i /\
    Z.testbit (interleave 0xdeadbeef 0x0badf00d) (2 * i + 1) = Z.testbit 0x0badf00d i.
Proof.
  split; [lia|].
  apply (interleave_deinterleave_roundtrip 0xdeadbeef 0x0badf00d); lia.
Defined.

(** ** The alphabet codec *)

Lemma Encode_loop_length n x acc :
  String.length (base32encoding.Encode_loop n x acc) = (n + String.length acc)%nat.
Proof.
  revert x acc. induction n as [|n IH]; intros x acc; simpl.
  - reflexivity.
  - rewrite IH. simpl. lia.
Qed.

Lemma Encode_length x : len (base32encoding.Encode x) = 12.
Proof.
  unfold len, base32encoding.Encode. now rewrite Encode_loop_length.
Qed.

Lemma string_drop_length n s :
  String.length (string_drop n s) = (String.length s - n)%nat.
Proof.
  revert s. induction n as [|n IH]; intros [|c s]; simpl; try reflexivity.
  apply IH.
Qed.

Lemma hash_symbols_length h i n : String.length (hash_symbols h i n) = n.
Proof.
  revert i. induction n as [|n IH]; intros i; simpl; [reflexivity|].
  now rewrite IH.
Qed.


(** The twelve symbols of [Encode x] are the twelve 5-bit groups of
    the low 60 bits of [x], the most significant group first. *)
Lemma Encode_groups x :
  base32encoding.Encode x =
  hash_symbols (Z.shiftl x 4) 0 12.
Proof.
  unfold base32encoding.Encode, base32encoding.Encode_loop, hash_symbols, shr64.
  change (64 <=? 5) with false. cbv iota.
  rewrite !Z.shiftr_shiftr by lia.
  rewrite !Z.shiftr_shiftl_r by lia.
  rewrite <- (Z.shiftr_0_r x) at 1.
  reflexivity.
Qed.

(** Keeping the last [k] symbols of the encoding of a hash that was
    right-aligned to [5 k] bits gives the first [k] groups of the
    hash: the composition used by [EncodeWithPrecision]. *)
Lemma encode_slice_symbols h k :
  0 <= k <= 12 ->
  slice_from (wrap64 (12 - k))
             (base32encoding.Encode (shr64 h (wrap64 (64 - wrap64 (5 * k))))) =
  Some (hash_symbols h 0 (Z.to_nat k)).
Proof.
  intros Hk.
  assert (Hcases : k = 0 \/ k = 1 \/ k = 2 \/ k = 3 \/ k = 4 \/ k = 5 \/ k = 6 \/
                   k = 7 \/ k = 8 \/ k = 9 \/ k = 10 \/ k = 11 \/ k = 12) by lia.
  unfold slice_from. rewrite Encode_length, Encode_groups.
  repeat (destruct Hcases as [->|Hcases]); [..|subst k];
    match goal with
    | |- context [wrap64 (12 - ?k)] =>
        let v := eval vm_compute in (wrap64 (12 - k)) in
        change (wrap64 (12 - k)) with v;
        let w := eval vm_compute in (wrap64 (64 - wrap64 (5 * k))) in
        change (wrap64 (64 - wrap64 (5 * k))) with w;
        let n := eval vm_compute in (Z.to_nat k) in
        change (Z.to_nat k) with n;
        let d := eval vm_compute in (Z.to_nat v) in
        change (Z.to_nat v) with d
    end;
    unfold shr64;
    match goal with
    | |- context [if 64 <=? ?s then _ else _] =>
        let b := eval vm_compute in (64 <=? s) in
        change (64 <=? s) with b
    end;
    cbv iota;
    match goal with
    | |- (if ?c then _ else _) = _ => change c with true
    end;
    cbv iota; f_equal;
    unfold hash_symbols, string_drop;
    repeat rewrite Z.shiftl_0_l;
    repeat rewrite Z.shiftr_0_l;
    repeat rewrite Z.shiftr_shiftl_r by lia;
    repeat rewrite Z.shiftr_shiftr by lia;
    reflexivity.
Qed.

Lemma small_nat v n : 0 <= v < Z.of_nat n -> exists k, (k < n)%nat /\ v = Z.of_nat k.
Proof. intros Hv. exists (Z.to_nat v). split; lia. Qed.

Lemma value_symbol v :
  0 <= v < 32 -> base32encoding.value (base32encoding.symbol v) = v.
Proof.
  intros Hv. destruct (small_nat v 32 Hv) as (k & Hk & ->).
  do 32 (destruct k as [|k]; [reflexivity|]). lia.
Qed.

Lemma ValidByte_symbol v :
  0 <= v < 32 -> base32encoding.ValidByte (base32encoding.symbol v) = true.
Proof.
  intros Hv. destruct (small_nat v 32 Hv) as (k & Hk & ->).
  do 32 (destruct k as [|k]; [reflexivity|]). lia.
Qed.

Lemma ValidByte_value c :
  base32encoding.ValidByte c = true -> 0 <= base32encoding.value c < 32.
Proof.
  destruct c as [[] [] [] [] [] [] [] []]; vm_compute; intuition congruence.
Qed.

Lemma land_31_range x : 0 <= Z.land x 31 < 32.
Proof. pose proof (land_range x 31). lia. Qed.

Lemma valid_hash_symbols h i n : valid_symbols (hash_symbols h i n) = true.
Proof.
  revert i. induction n as [|n IH]; intros i; simpl; [reflexivity|].
  rewrite IH, ValidByte_symbol by apply land_31_range. reflexivity.
Qed.

Lemma testbit_31 k : 0 <= k -> Z.testbit 31 k = (k <? 5).
Proof.
  intros Hk. change 31 with (Z.ones 5).
  destruct (Z.ltb_spec k 5).
  - apply Z.ones_spec_low. lia.
  - apply Z.ones_spec_high. lia.
Qed.

Lemma testbit_wrap64 z k :
  0 <= k -> Z.testbit (wrap64 z) k = (k <? 64) && Z.testbit z k.
Proof.
  intros Hk. unfold wrap64. destruct (Z.ltb_spec k 64).
  - now rewrite Z.mod_pow2_bits_low by lia.
  - now rewrite Z.mod_pow2_bits_high by lia.
Qed.

(** Appending one more group to the first [i] groups of [h]. *)
Lemma append_group h i :
  0 <= h < 2 ^ 64 -> 0 <= i < 12 ->
  Z.lor (shl64 (Z.shiftr h (64 - 5 * i)) 5) (Z.land (Z.shiftr h (59 - 5 * i)) 31) =
  Z.shiftr h (64 - 5 * (i + 1)).
Proof.
  intros Hh Hi. unfold shl64. change (64 <=? 5) with false. cbv iota.
  apply Z.bits_inj'. intros k Hk.
  rewrite Z.lor_spec, Z.land_spec, testbit_wrap64, testbit_31 by assumption.
  rewrite !Z.shiftr_spec by lia.
  destruct (Z.ltb_spec k 5).
  - rewrite Z.shiftl_spec_low by lia.
    rewrite andb_false_r, andb_true_r. cbn [orb].
    f_equal. lia.
  - rewrite andb_false_r, orb_false_r.
    rewrite Z.shiftl_spec, Z.shiftr_spec by lia.
    destruct (Z.ltb_spec k 64); cbn [andb].
    + f_equal. lia.
    + symmetry. apply (testbit_high 64); [assumption|lia].
Qed.

Lemma Decode_loop_symbols h n :
  0 <= h < 2 ^ 64 ->
  forall i, 0 <= i -> i + Z.of_nat n <= 12 ->
  base32encoding.Decode_loop (Z.shiftr h (64 - 5 * i)) (hash_symbols h i n) =
  Z.shiftr h (64 - 5 * (i + Z.of_nat n)).
Proof.
  intros Hh. induction n as [|n IH]; intros i Hi Hn.
  - cbn [hash_symbols base32encoding.Decode_loop]. f_equal. lia.
  - cbn [hash_symbols base32encoding.Decode_loop].
    rewrite value_symbol by apply land_31_range.
    rewrite append_group by lia.
    rewrite IH by lia. f_equal. lia.
Qed.

Lemma Decode_hash_symbols h n :
  0 <= h < 2 ^ 64 -> (n <= 12)%nat ->
  base32encoding.Decode (hash_symbols h 0 n) = Z.shiftr h (64 - 5 * Z.of_nat n).
Proof.
  intros Hh Hn. unfold base32encoding.Decode.
  replace 0 with (Z.shiftr h (64 - 5 * 0)) at 1.
  - rewrite Decode_loop_symbols by lia. f_equal.
  - apply Z.shiftr_eq_0; [lia|].
    destruct (Z.eq_dec h 0) as [->|]; [reflexivity|].
    apply Z.log2_lt_pow2; lia.
Qed.

Lemma lor_add_low a v :
  0 <= v < 32 -> Z.lor (Z.shiftl a 5) v = 32 * a + v.
Proof.
  intros Hv.
  assert (Hand : Z.land (Z.shiftl a 5) v = 0).
  { apply Z.bits_inj'. intros k Hk. rewrite Z.land_spec, Z.bits_0.
    destruct (Z.ltb_spec k 5).
    - now rewrite Z.shiftl_spec_low by lia.
    - rewrite (testbit_high 5 v) by (try change (2 ^ 5) with 32; lia).
      apply andb_false_r. }
  assert (Es : Z.shiftl a 5 = 32 * a).
  { rewrite Z.shiftl_mul_pow2 by lia. change (2 ^ 5) with 32. lia. }
  pose proof (Z.add_lor_land (Z.shiftl a 5) v) as E.
  rewrite Hand in E. lia.
Qed.

(** On a valid string that fits the word, the decoder computes the
    base-32 number written by the symbols. *)
Lemma Decode_loop_base32 s :
  valid_symbols s = true ->
  forall acc, 0 <= acc -> (acc + 1) * 32 ^ len s <= 2 ^ 64 ->
  base32encoding.Decode_loop acc s = base32_value acc s /\
  0 <= base32_value acc s < (acc + 1) * 32 ^ len s.
Proof.
  induction s as [|c s IH]; intros Hv acc Hacc Hfit.
  - cbn. change (len EmptyString) with 0 in *. lia.
  - cbn [valid_symbols] in Hv. apply andb_true_iff in Hv as [Hc Hs].
    apply ValidByte_value in Hc.
    assert (Hlen : len (String c s) = len s + 1).
    { unfold len. cbn [String.length]. lia. }
    assert (0 <= len s) by (unfold len; lia).
    rewrite Hlen, Z.pow_add_r in * by lia.
    change (32 ^ 1) with 32 in *.
    assert (0 < 32 ^ len s) by (apply Z.pow_pos_nonneg; lia).
    cbn [base32encoding.Decode_loop base32_value].
    unfold shl64. change (64 <=? 5) with false. cbv iota.
    rewrite wrap64_small.
    2:{ rewrite Z.shiftl_mul_pow2 by lia. change (2 ^ 5) with 32. nia. }
    rewrite lor_add_low by assumption.
    destruct (IH Hs (32 * acc + base32encoding.value c)) as [E B]; [lia|nia|].
    split; [exact E|]. nia.
Qed.

(** ** Integer and string geohashes *)

Lemma encodeRange_range x r : 0 <= encodeRange x r < 2 ^ 32.
Proof. unfold encodeRange, uint32_of_float. apply wrap32_range. Qed.

Lemma EncodeInt_range lat lng : 0 <= EncodeInt lat lng < 2 ^ 64.
Proof. unfold EncodeInt, encodeInt. apply interleave_range. Qed.

Lemma EncodeWithPrecision_symbols lat lng k :
  0 <= k <= 12 ->
  EncodeWithPrecision lat lng k = Some (hash_symbols (EncodeInt lat lng) 0 (Z.to_nat k)).
Proof.
  intros Hk. unfold EncodeWithPrecision, EncodeIntWithPrecision.
  now apply encode_slice_symbols.
Qed.

Lemma wrap_int_small x : 0 <= x < 2 ^ 63 -> wrap_int x = x.
Proof.
  intros Hx. unfold wrap_int, int_of_uint.
  rewrite wrap64_small by lia.
  destruct (Z.ltb_spec x (2 ^ 63)); lia.
Qed.

(** C7: [EncodeInt] is the interleaving of the two axis codes, the
    latitude code on the even and the longitude code on the odd bit
    positions; for [bits] from 1 to 64, [EncodeIntWithPrecision] is
    [EncodeInt] shifted right by [64 - bits], a value below [2^bits]. *)
Theorem EncodeInt_interleaves_axis_codes lat lng bits :
  1 <= bits <= 64 ->
  EncodeInt lat lng = interleave (encodeRange lat (f64 90)) (encodeRange lng (f64 180)) /\
  (forall i, 0 <= i < 32 ->
     Z.testbit (EncodeInt lat lng) (2 * i) = Z.testbit (encodeRange lat (f64 90)) i /\
     Z.testbit (EncodeInt lat lng) (2 * i + 1) = Z.testbit (encodeRange lng (f64 180)) i) /\
  EncodeIntWithPrecision lat lng bits = Z.shiftr (EncodeInt lat lng) (64 - bits) /\
  0 <= EncodeIntWithPrecision lat lng bits < 2 ^ bits.
Proof.
  intros Hb.
  assert (Hshift : EncodeIntWithPrecision lat lng bits = Z.shiftr (EncodeInt lat lng) (64 - bits)).
  { unfold EncodeIntWithPrecision, shr64.
    rewrite wrap64_small by lia.
    destruct (Z.leb_spec 64 (64 - bits)); [lia|reflexivity]. }
  split; [reflexivity|]. split; [|split; [exact Hshift|]].
  - intros i Hi. unfold EncodeInt, encodeInt.
    apply (interleave_deinterleave_bits_aux _ _ (encodeRange_range _ _) (encodeRange_range _ _) i Hi).
  - rewrite Hshift, Z.shiftr_div_pow2 by lia.
    pose proof (EncodeInt_range lat lng) as Hr.
    assert (E : 2 ^ 64 = 2 ^ (64 - bits) * 2 ^ bits)
      by (rewrite <- Z.pow_add_r by lia; f_equal; lia).
    assert (0 < 2 ^ (64 - bits)) by (apply Z.pow_pos_nonneg; lia).
    split.
    + apply Z.div_pos; lia.
    + apply Z.div_lt_upper_bound; lia.
Qed.

Lemma EncodeInt_interleaves_axis_codes_witness :
  1 <= 25 <= 64 /\
  EncodeInt (f64 45) (f64 (-120)) =
    interleave (encodeRange (f64 45) (f64 90)) (encodeRange (f64 (-120)) (f64 180)) /\
  (forall i, 0 <= i < 32 ->
     Z.testbit (EncodeInt (f64 45) (f64 (-120))) (2 * i) =
       Z.testbit (encodeRange (f64 45) (f64 90)) i /\
     Z.testbit (EncodeInt (f64 45) (f64 (-120))) (2 * i + 1) =
       Z.testbit (encodeRange (f64 (-120)) (f64 180)) i) /\
  EncodeIntWithPrecision (f64 45) (f64 (-120)) 25 =
    Z.shiftr (EncodeInt (f64 45) (f64 (-120))) (64 - 25) /\
  0 <= EncodeIntWithPrecision (f64 45) (f64 (-120)) 25 < 2 ^ 25.
Proof.
  split; [lia|].
  apply (EncodeInt_interleaves_axis_codes (f64 45) (f64 (-120)) 25). lia.
Defined.



Lemma ConvertStringToInt_hash_symbols lat lng k :
  1 <= k <= 12 ->
  len (hash_symbols (EncodeInt lat lng) 0 (Z.to_nat k)) = k /\
  ConvertStringToInt (hash_symbols (EncodeInt lat lng) 0 (Z.to_nat k)) =
  (Z.shiftr (EncodeInt lat lng) (64 - 5 * k), 5 * k).
Proof.
  intros Hk.
  assert (Hlen : len (hash_symbols (EncodeInt lat lng) 0 (Z.to_nat k)) = k).
  { unfold len. rewrite hash_symbols_length. lia. }
  split; [exact Hlen|].
  unfold ConvertStringToInt. rewrite Hlen.
  rewrite Decode_hash_symbols by (try apply EncodeInt_range; lia).
  rewrite wrap_int_small, wrap64_small by lia.
  f_equal. f_equal. lia.
Qed.

(** C4: for every point and every [k] from 1 to 12, converting the
    [k]-character hash to an integer gives the full integer hash
    shifted right by [64 - 5 k], together with the precision [5 k]. *)
Theorem ConvertStringToInt_of_encoded lat lng k :
  1 <= k <= 12 ->
  exists H,
    EncodeWithPrecision lat lng k = Some H /\
    len H = k /\
    ConvertStringToInt H = (Z.shiftr (EncodeInt lat lng) (64 - 5 * k), 5 * k).
Proof.
  intros Hk. rewrite EncodeWithPrecision_symbols by lia.
  eexists. split; [reflexivity|].
  now apply ConvertStringToInt_hash_symbols.
Qed.

Lemma ConvertStringToInt_of_encoded_witness :
  1 <= 5 <= 12 /\
  exists H,
    EncodeWithPrecision (f64 45) (f64 (-120)) 5 = Some H /\
    len H = 5 /\
    ConvertStringToInt H = (Z.shiftr (EncodeInt (f64 45) (f64 (-120))) (64 - 5 * 5), 5 * 5).
Proof.
  split; [lia|].
  apply (ConvertStringToInt_of_encoded (f64 45) (f64 (-120)) 5). lia.
Defined.

(** ** The decoded integer is right-aligned *)

Lemma pow32_pow2 n : 0 <= n -> 32 ^ n = 2 ^ (5 * n).
Proof. intros Hn. rewrite Z.pow_mul_r by lia. reflexivity. Qed.

(** C5, as the spec words it, fails: the one-symbol hash [s] decodes
    to 24, whose low 59 bits are not zero. *)
Lemma ConvertStringToInt_tail_not_zero :
  valid_symbols "s" = true /\ len "s" < 12 /\
  fst (ConvertStringToInt "s") = 24 /\
  snd (ConvertStringToInt "s") = 5 * len "s" /\
  fst (ConvertStringToInt "s") mod 2 ^ (64 - 5 * len "s") <> 0 /\
  fst (ConvertStringToInt "s") <> base32encoding.Decode_left_justified "s".
Proof. vm_compute. repeat split; congruence. Qed.

(** C5, amended: for every valid hash [H] of fewer than 12 symbols,
    [ConvertStringToInt] maps each symbol to its 5-bit value,
    concatenated most significant first, into a value below
    [2^(5 len H)]: the decoded bits are right-aligned, at the bottom of
    the word, and the high-order [64 - 5 len H] bits are zero. The
    zero tail belongs to the left-justified form, which is that value
    shifted left by [64 - 5 len H]. *)
Theorem ConvertStringToInt_right_aligned H :
  valid_symbols H = true -> len H < 12 ->
  ConvertStringToInt H = (base32_value 0 H, 5 * len H) /\
  0 <= base32_value 0 H < 2 ^ (5 * len H) /\
  base32encoding.Decode_left_justified H = base32_value 0 H * 2 ^ (64 - 5 * len H) /\
  base32encoding.Decode_left_justified H mod 2 ^ (64 - 5 * len H) = 0.
Proof.
  intros Hv Hl.
  assert (Hl0 : 0 <= len H) by (unfold len; lia).
  assert (Hfit : (0 + 1) * 32 ^ len H <= 2 ^ 64).
  { rewrite pow32_pow2 by lia. rewrite Z.mul_1_l.
    apply Z.pow_le_mono_r; lia. }
  destruct (Decode_loop_base32 H Hv 0 ltac:(lia) Hfit) as [E B].
  rewrite pow32_pow2 in B by lia.
  assert (Hdec : base32encoding.Decode H = base32_value 0 H) by exact E.
  assert (Hp : 0 < 2 ^ (64 - 5 * len H)) by (apply Z.pow_pos_nonneg; lia).
  assert (Hleft : base32encoding.Decode_left_justified H =
                  base32_value 0 H * 2 ^ (64 - 5 * len H)).
  { unfold base32encoding.Decode_left_justified, shl64.
    rewrite Hdec, (wrap64_small (64 - 5 * len H)) by lia.
    destruct (Z.leb_spec 64 (64 - 5 * len H)) as [Hge|Hlt].
    - assert (len H = 0) by lia.
      assert (base32_value 0 H = 0) by (replace (5 * len H) with 0 in B by lia; simpl in B; lia).
      lia.
    - rewrite Z.shiftl_mul_pow2 by lia. apply wrap64_small.
      assert (E64 : 2 ^ 64 = 2 ^ (5 * len H) * 2 ^ (64 - 5 * len H))
        by (rewrite <- Z.pow_add_r by lia; f_equal; lia).
      rewrite E64. nia. }
  split; [|split; [|split]].
  - unfold ConvertStringToInt. rewrite Hdec.
    now rewrite wrap_int_small, wrap64_small by lia.
  - lia.
  - exact Hleft.
  - rewrite Hleft. apply Z.mod_mul. lia.
Qed.

Lemma ConvertStringToInt_right_aligned_witness :
  (valid_symbols "ezs42" = true /\ len "ezs42" < 12) /\
  ConvertStringToInt "ezs42" = (base32_value 0 "ezs42", 5 * len "ezs42") /\
  0 <= base32_value 0 "ezs42" < 2 ^ (5 * len "ezs42") /\
  base32encoding.Decode_left_justified "ezs42" =
    base32_value 0 "ezs42" * 2 ^ (64 - 5 * len "ezs42") /\
  base32encoding.Decode_left_justified "ezs42" mod 2 ^ (64 - 5 * len "ezs42") = 0.
Proof.
  split.
  - split; [reflexivity | vm_compute; reflexivity].
  - apply (ConvertStringToInt_right_aligned "ezs42");
      [reflexivity | vm_compute; reflexivity].
Defined.

(** ** Slicing and panics *)

Lemma slice_encode_length x chars :
  0 <= chars <= 12 ->
  exists s, slice_from (wrap64 (12 - chars)) (base32encoding.Encode x) = Some s /\
            len s = chars.
Proof.
  intros Hc. unfold slice_from.
  rewrite wrap64_small, Encode_length by lia.
  destruct (Z.leb_spec (12 - chars) 12); [|lia].
  eexists. split; [reflexivity|].
  unfold len. rewrite string_drop_length.
  pose proof (Encode_length x) as E. unfold len in E. lia.
Qed.

Lemma slice_encode_panics x chars :
  12 < chars < 2 ^ 64 ->
  slice_from (wrap64 (12 - chars)) (base32encoding.Encode x) = None.
Proof.
  intros Hc. unfold slice_from. rewrite Encode_length.
  assert (E : wrap64 (12 - chars) = 2 ^ 64 + 12 - chars).
  { unfold wrap64. symmetry. apply (Z.mod_unique _ _ (-1)); lia. }
  rewrite E. destruct (Z.leb_spec (2 ^ 64 + 12 - chars) 12); [lia|reflexivity].
Qed.

(** C10: for [chars] from 0 to 12, [EncodeWithPrecision] and
    [ConvertIntToString] return a string of exactly [chars]
    characters; for every larger [chars] the unsigned [12 - chars]
    wraps around and the slice [enc[12-chars:]] panics. *)
Theorem EncodeWithPrecision_length_or_panic lat lng hash chars :
  0 <= chars < 2 ^ 64 ->
  if chars <=? 12 then
    (exists s, EncodeWithPrecision lat lng chars = Some s /\ len s = chars) /\
    (exists s, ConvertIntToString hash chars = Some s /\ len s = chars)
  else
    wrap64 (12 - chars) = 2 ^ 64 + 12 - chars /\
    12 < wrap64 (12 - chars) /\
    EncodeWithPrecision lat lng chars = None /\
    ConvertIntToString hash chars = None.
Proof.
  intros Hc. destruct (Z.leb_spec chars 12) as [H12|H12].
  - split; apply slice_encode_length; lia.
  - assert (E : wrap64 (12 - chars) = 2 ^ 64 + 12 - chars).
    { unfold wrap64. symmetry. apply (Z.mod_unique _ _ (-1)); lia. }
    split; [exact E|]. split; [lia|].
    split; apply slice_encode_panics; lia.
Qed.

Lemma EncodeWithPrecision_length_or_panic_witness :
  ((0 <= 7 < 2 ^ 64) /\
   (exists s, EncodeWithPrecision (f64 45) (f64 (-120)) 7 = Some s /\ len s = 7) /\
   (exists s, ConvertIntToString 12345 7 = Some s /\ len s = 7)) /\
  ((0 <= 13 < 2 ^ 64) /\
   wrap64 (12 - 13) = 2 ^ 64 + 12 - 13 /\
   12 < wrap64 (12 - 13) /\
   EncodeWithPrecision (f64 45) (f64 (-120)) 13 = None /\
   ConvertIntToString 12345 13 = None).
Proof.
  split; (split; [lia|]).
  - apply (EncodeWithPrecision_length_or_panic (f64 45) (f64 (-120)) 12345 7). lia.
  - apply (EncodeWithPrecision_length_or_panic (f64 45) (f64 (-120)) 12345 13). lia.
Defined.

(** ** Validation *)

Lemma check_characters_spec h :
  check_characters h =
  match first_invalid h with
  | Some b => Some (InvalidCharacter b)
  | None => None
  end.
Proof.
  induction h as [|c h IH]; cbn; [reflexivity|].
  destruct (base32encoding.ValidByte c); cbn; [exact IH|reflexivity].
Qed.

Lemma first_invalid_valid h :
  first_invalid h = None <-> valid_symbols h = true.
Proof.
  induction h as [|c h IH]; cbn; [tauto|].
  destruct (base32encoding.ValidByte c); cbn; [exact IH|].
  split; discriminate.
Qed.

Lemma first_invalid_is_invalid h b :
  first_invalid h = Some b ->
  base32encoding.ValidByte b = false /\
  exists pre post,
    h = (pre ++ String b post)%string /\ valid_symbols pre = true.
Proof.
  induction h as [|c h IH]; cbn; [discriminate|].
  destruct (base32encoding.ValidByte c) eqn:E.
  - intros Hf. destruct (IH Hf) as (Hb & pre & post & -> & Hpre).
    split; [exact Hb|]. exists (String c pre), post. cbn.
    now rewrite E, Hpre.
  - intros [= <-]. split; [exact E|]. now exists EmptyString, h.
Qed.

Lemma valid_symbols_In h c :
  valid_symbols h = true -> In c (list_ascii_of_string h) ->
  base32encoding.ValidByte c = true.
Proof.
  induction h as [|d h IH]; cbn; [tauto|].
  intros Hv [->|Hin]; apply andb_true_iff in Hv as [Hd Hh]; auto.
Qed.

Lemma upper_not_valid c :
  is_upper c = true -> base32encoding.ValidByte c = false.
Proof.
  destruct c as [[] [] [] [] [] [] [] []]; vm_compute; congruence.
Qed.

(** C9: [Validate] returns nil exactly for the strings of at most 64
    bits of precision whose bytes are all alphabet symbols; 13 or more
    characters give "too long", whatever the bytes; otherwise the error
    is "invalid character" and names the first byte outside the
    alphabet; [a], [i], [l], [o] and the upper-case letters are
    outside it; and every string produced by [Encode] or by
    [EncodeWithPrecision] with at most 12 characters passes.
    The product [5 * len h] is taken not to overflow an [int], as it
    cannot for a string that fits the address space. *)
Theorem Validate_spec h lat lng chars :
  5 * len h < 2 ^ 63 -> 0 <= chars <= 12 ->
  (Validate h = None <-> 5 * len h <= 64 /\ valid_symbols h = true) /\
  (13 <= len h -> Validate h = Some TooLong) /\
  (Validate h = Some TooLong <-> 64 < 5 * len h) /\
  (5 * len h <= 64 -> valid_symbols h = false ->
     exists b pre post,
       Validate h = Some (InvalidCharacter b) /\
       h = (pre ++ String b post)%string /\
       valid_symbols pre = true /\ base32encoding.ValidByte b = false) /\
  (forall c, In c (list_ascii_of_string "ailo") \/ is_upper c = true ->
     base32encoding.ValidByte c = false /\
     (5 * len h <= 64 -> In c (list_ascii_of_string h) ->
        exists b, Validate h = Some (InvalidCharacter b))) /\
  (exists s, EncodeWithPrecision lat lng chars = Some s /\ Validate s = None) /\
  (exists s, Encode lat lng = Some s /\ Validate s = None).
Proof.
  intros Hov Hc.
  assert (Hl0 : 0 <= len h) by (unfold len; lia).
  unfold Validate. rewrite wrap_int_small, check_characters_spec by lia.
  assert (Hbad : forall c, In c (list_ascii_of_string "ailo") \/ is_upper c = true ->
                           base32encoding.ValidByte c = false).
  { intros c [Hin|Hup]; [|now apply upper_not_valid].
    cbn in Hin. destruct Hin as [<-|[<-|[<-|[<-|[]]]]]; reflexivity. }
  assert (Hgen : forall k, 0 <= k <= 12 ->
            exists s, EncodeWithPrecision lat lng k = Some s /\ Validate s = None).
  { intros k Hk. rewrite EncodeWithPrecision_symbols by lia.
    eexists. split; [reflexivity|]. unfold Validate.
    assert (Hlen : len (hash_symbols (EncodeInt lat lng) 0 (Z.to_nat k)) = k)
      by (unfold len; rewrite hash_symbols_length; lia).
    rewrite Hlen, wrap_int_small, check_characters_spec by lia.
    destruct (Z.ltb_spec 64 (5 * k)); [lia|].
    pose proof (valid_hash_symbols (EncodeInt lat lng) 0 (Z.to_nat k)) as Hv.
    apply first_invalid_valid in Hv. now rewrite Hv. }
  destruct (Z.ltb_spec 64 (5 * len h)) as [Hlong|Hshort].
  - split; [|split; [|split; [|split; [|split; [|split]]]]].
    + split; [discriminate|]. intros [? _]. lia.
    + reflexivity.
    + split; auto.
    + intros. lia.
    + intros c Hc'. split; [now apply Hbad|]. intros. lia.
    + apply Hgen; lia.
    + apply Hgen; lia.
  - split; [|split; [|split; [|split; [|split; [|split]]]]].
    + destruct (first_invalid h) eqn:E.
      * split; [discriminate|]. intros [_ Hv].
        apply first_invalid_valid in Hv. congruence.
      * split; [|reflexivity]. intros _. split; [lia|].
        now apply first_invalid_valid.
    + intros. lia.
    + split; [|lia]. destruct (first_invalid h); discriminate.
    + intros _ Hv. destruct (first_invalid h) as [b|] eqn:E.
      * destruct (first_invalid_is_invalid h b E) as (Hb & pre & post & Hh & Hpre).
        exists b, pre, post. auto.
      * apply first_invalid_valid in E. congruence.
    + intros c Hc'. split; [now apply Hbad|]. intros _ Hin.
      destruct (first_invalid h) as [b|] eqn:E; [now exists b|].
      apply first_invalid_valid in E.
      pose proof (valid_symbols_In h c E Hin) as Hvc.
      rewrite (Hbad c Hc') in Hvc. discriminate.
    + apply Hgen; lia.
    + apply Hgen; lia.
Qed.

Lemma Validate_spec_witness :
  (5 * len "ezs42" < 2 ^ 63 /\ 0 <= 5 <= 12) /\
  (Validate "ezs42" = None <-> 5 * len "ezs42" <= 64 /\ valid_symbols "ezs42" = true) /\
  (13 <= len "ezs42" -> Validate "ezs42" = Some TooLong) /\
  (Validate "ezs42" = Some TooLong <-> 64 < 5 * len "ezs42") /\
  (5 * len "ezs42" <= 64 -> valid_symbols "ezs42" = false ->
     exists b pre post,
       Validate "ezs42" = Some (InvalidCharacter b) /\
       "ezs42"%string = (pre ++ String b post)%string /\
       valid_symbols pre = true /\ base32encoding.ValidByte b = false) /\
  (forall c, In c (list_ascii_of_string "ailo") \/ is_upper c = true ->
     base32encoding.ValidByte c = false /\
     (5 * len "ezs42" <= 64 -> In c (list_ascii_of_string "ezs42") ->
        exists b, Validate "ezs42" = Some (InvalidCharacter b))) /\
  (exists s, EncodeWithPrecision (f64 45) (f64 (-120)) 5 = Some s /\ Validate s = None) /\
  (exists s, Encode (f64 45) (f64 (-120)) = Some s /\ Validate s = None).
Proof.
  split.
  - split; [vm_compute; reflexivity | lia].
  - apply (Validate_spec "ezs42" (f64 45) (f64 (-120)) 5);
      [vm_compute; reflexivity | lia].
Defined.

(** ** float64: digits, canonical form and order *)

Lemma fexp_eq e : fexp prec emax e = Z.max (e - 53) (-1074).
Proof. reflexivity. Qed.

Lemma digits_log2 m : Zpos (digits2_pos m) = Z.log2 (Zpos m) + 1.
Proof.
  induction m as [m IH|m IH|]; cbn [digits2_pos]; rewrite ?Pos2Z.inj_succ.
  - rewrite IH. change (Zpos m~1) with (2 * Zpos m + 1).
    rewrite Z.log2_succ_double by lia. lia.
  - rewrite IH. change (Zpos m~0) with (2 * Zpos m).
    rewrite Z.log2_double by lia. lia.
  - reflexivity.
Qed.

Lemma digits_bounds m :
  2 ^ (Zpos (digits2_pos m) - 1) <= Zpos m < 2 ^ Zpos (digits2_pos m).
Proof.
  rewrite digits_log2.
  pose proof (Z.log2_spec (Zpos m) ltac:(lia)) as H.
  replace (Z.log2 (Zpos m) + 1 - 1) with (Z.log2 (Zpos m)) by lia.
  replace (Z.log2 (Zpos m) + 1) with (Z.succ (Z.log2 (Zpos m))) by lia.
  exact H.
Qed.

Lemma digits_mul_pow2 m q n :
  0 <= n -> Zpos m = Zpos q * 2 ^ n ->
  Zpos (digits2_pos m) = Zpos (digits2_pos q) + n.
Proof.
  intros Hn E. rewrite !digits_log2, E, Z.log2_mul_pow2 by lia. lia.
Qed.

Lemma bounded_spec m e :
  bounded prec emax m e = true <->
  (Zpos (digits2_pos m) <= 53 /\ -1074 <= e <= 971 /\
   (Zpos (digits2_pos m) = 53 \/ e = -1074)).
Proof.
  unfold bounded, canonical_mantissa. rewrite fexp_eq.
  change (emax - prec) with 971.
  rewrite andb_true_iff, Z.eqb_eq, Z.leb_le. lia.
Qed.

Lemma finite_val_bound s m e :
  bounded prec emax m e = true -> Z.abs (val (S754_finite s m e)) < 2 ^ 2100.
Proof.
  intros Hb. apply bounded_spec in Hb as (Hd & He & _).
  pose proof (digits_bounds m) as [_ Hm].
  assert (Hm' : Zpos m < 2 ^ 53).
  { eapply Z.lt_le_trans; [exact Hm|]. apply Z.pow_le_mono_r; lia. }
  cbn [val]. assert (Hp : 0 < 2 ^ (e + 1074)) by (apply Z.pow_pos_nonneg; lia).
  assert (Hp' : 2 ^ (e + 1074) <= 2 ^ 2045) by (apply Z.pow_le_mono_r; lia).
  assert (E : 2 ^ 2100 = 2 ^ 53 * 2 ^ 2045 * 2 ^ 2) by reflexivity.
  rewrite E. unfold signed. destruct s; nia.
Qed.

(** The order of canonical mantissas and exponents is the order of
    values. *)
Lemma canonical_lt m1 e1 m2 e2 :
  bounded prec emax m1 e1 = true -> bounded prec emax m2 e2 = true ->
  e1 < e2 -> Zpos m1 * 2 ^ (e1 + 1074) < Zpos m2 * 2 ^ (e2 + 1074).
Proof.
  intros H1 H2 He.
  apply bounded_spec in H1 as (Hd1 & He1 & _).
  apply bounded_spec in H2 as (Hd2 & He2 & Hn2).
  assert (Hd : Zpos (digits2_pos m2) = 53) by lia.
  pose proof (digits_bounds m1) as [_ Hm1].
  pose proof (digits_bounds m2) as [Hm2 _]. rewrite Hd in Hm2.
  assert (Hm1' : Zpos m1 < 2 ^ 53).
  { eapply Z.lt_le_trans; [exact Hm1|]. apply Z.pow_le_mono_r; lia. }
  change (2 ^ (53 - 1)) with (2 ^ 52) in Hm2.
  replace (e2 + 1074) with ((e2 - e1 - 1) + 1 + (e1 + 1074)) by lia.
  rewrite (Z.pow_add_r 2 (e2 - e1 - 1 + 1) (e1 + 1074)) by lia.
  rewrite (Z.pow_add_r 2 (e2 - e1 - 1) 1) by lia. change (2 ^ 1) with 2.
  assert (HA : 0 < 2 ^ (e1 + 1074)) by (apply Z.pow_pos_nonneg; lia).
  assert (HB : 0 < 2 ^ (e2 - e1 - 1)) by (apply Z.pow_pos_nonneg; lia).
  set (A := 2 ^ (e1 + 1074)) in *. set (B := 2 ^ (e2 - e1 - 1)) in *.
  assert (S1 : Zpos m1 * A < 2 ^ 53 * A)
    by (apply Z.mul_lt_mono_pos_r; assumption).
  assert (S2 : 2 ^ 53 * A <= Zpos m2 * 2 * A).
  { apply Z.mul_le_mono_nonneg_r; [lia|].
    change (2 ^ 53) with (2 ^ 52 * 2). lia. }
  assert (S3 : Zpos m2 * 2 * A <= Zpos m2 * (B * 2 * A)).
  { rewrite <- !Z.mul_assoc. apply Z.mul_le_mono_nonneg_l; [lia|].
    rewrite <- (Z.mul_1_l (2 * A)) at 1.
    apply Z.mul_le_mono_nonneg_r; lia. }
  lia.
Qed.

Lemma compare_finite_pos m1 e1 m2 e2 :
  bounded prec emax m1 e1 = true -> bounded prec emax m2 e2 = true ->
  match e1 ?= e2 with
  | Lt => Lt
  | Gt => Gt
  | Eq => Pos.compare_cont Eq m1 m2
  end = (Zpos m1 * 2 ^ (e1 + 1074) ?= Zpos m2 * 2 ^ (e2 + 1074)).
Proof.
  intros H1 H2. destruct (Z.compare_spec e1 e2) as [->|Hlt|Hgt].
  - change (Pos.compare_cont Eq m1 m2) with (Zpos m1 ?= Zpos m2).
    apply bounded_spec in H2 as (_ & He & _).
    assert (0 < 2 ^ (e2 + 1074)) by (apply Z.pow_pos_nonneg; lia).
    symmetry. destruct (Z.compare_spec (Zpos m1) (Zpos m2)) as [E|L|G].
    + rewrite E. apply Z.compare_refl.
    + apply Z.compare_lt_iff. nia.
    + apply Z.compare_gt_iff. nia.
  - symmetry. apply Z.compare_lt_iff. now apply canonical_lt.
  - symmetry. apply Z.compare_gt_iff. now apply canonical_lt.
Qed.

Lemma SFcompare_val x y :
  valid x = true -> valid y = true -> is_nan x = false -> is_nan y = false ->
  SFcompare x y = Some (val x ?= val y).
Proof.
  intros Hx Hy Nx Ny.
  destruct x as [sx|sx| |sx mx ex], y as [sy|sy| |sy my ey];
    try discriminate; cbn [SFcompare val].
  - reflexivity.
  - destruct sy; reflexivity.
  - pose proof (Pos2Z.is_pos my). assert (0 < 2 ^ (ey + 1074)).
    { apply bounded_spec in Hy. apply Z.pow_pos_nonneg; lia. }
    f_equal. symmetry. unfold signed.
    destruct sy; [apply Z.compare_gt_iff | apply Z.compare_lt_iff]; nia.
  - destruct sx; reflexivity.
  - destruct sx, sy; reflexivity.
  - pose proof (finite_val_bound sy my ey Hy) as B. cbn [val] in B.
    f_equal. symmetry.
    destruct sx; [apply Z.compare_lt_iff | apply Z.compare_gt_iff]; lia.
  - pose proof (Pos2Z.is_pos mx). assert (0 < 2 ^ (ex + 1074)).
    { apply bounded_spec in Hx. apply Z.pow_pos_nonneg; lia. }
    f_equal. symmetry. unfold signed.
    destruct sx; [apply Z.compare_lt_iff | apply Z.compare_gt_iff]; nia.
  - pose proof (finite_val_bound sx mx ex Hx) as B. cbn [val] in B.
    f_equal. symmetry.
    destruct sy; [apply Z.compare_gt_iff | apply Z.compare_lt_iff]; lia.
  - f_equal.
    assert (Px : 0 < Zpos mx * 2 ^ (ex + 1074)).
    { apply bounded_spec in Hx. apply Z.mul_pos_pos; [lia|].
      apply Z.pow_pos_nonneg; lia. }
    assert (Py : 0 < Zpos my * 2 ^ (ey + 1074)).
    { apply bounded_spec in Hy. apply Z.mul_pos_pos; [lia|].
      apply Z.pow_pos_nonneg; lia. }
    destruct sx, sy; unfold signed.
    + pose proof (compare_finite_pos mx ex my ey Hx Hy) as C.
      change (Z.neg mx) with (- Zpos mx). change (Z.neg my) with (- Zpos my).
      rewrite !Z.mul_opp_l.
      rewrite (Z.compare_opp (Zpos mx * 2 ^ (ex + 1074)) (Zpos my * 2 ^ (ey + 1074))).
      rewrite (Z.compare_antisym (Zpos mx * 2 ^ (ex + 1074)) (Zpos my * 2 ^ (ey + 1074))).
      rewrite <- C.
      destruct (ex ?= ey); reflexivity.
    + symmetry. apply Z.compare_lt_iff.
      change (Z.neg mx) with (- Zpos mx). lia.
    + symmetry. apply Z.compare_gt_iff.
      change (Z.neg my) with (- Zpos my). lia.
    + apply compare_finite_pos; assumption.
Qed.

Lemma fle_val x y :
  valid x = true -> valid y = true ->
  (fle x y = true <->
   is_nan x = false /\ is_nan y = false /\ val x <= val y).
Proof.
  intros Hx Hy. unfold fle, SFleb.
  destruct (is_nan x) eqn:Nx.
  { destruct x; try discriminate. cbn. intuition discriminate. }
  destruct (is_nan y) eqn:Ny.
  { destruct y; try discriminate. destruct x; cbn; intuition discriminate. }
  rewrite SFcompare_val by assumption.
  destruct (Z.compare_spec (val x) (val y)); intuition (try discriminate; try lia).
Qed.

(** ** Exact rounding

    When the exact result of an operation is a binary64 number, the
    rounding of [SpecFloat] returns it: shifting out zero bits leaves
    an exact location, and the round-to-nearest step changes nothing. *)

Lemma iter_pos_nat {A : Type} (f : A -> A) p x :
  iter_pos f p x = Nat.iter (Pos.to_nat p) f x.
Proof.
  revert x. induction p as [p IH|p IH|]; intros x; cbn [iter_pos].
  - rewrite !IH, Pos2Nat.inj_xI, Nat.iter_succ_r.
    replace (2 * Pos.to_nat p)%nat with (Pos.to_nat p + Pos.to_nat p)%nat by lia.
    now rewrite Nat.iter_add.
  - rewrite !IH, Pos2Nat.inj_xO.
    replace (2 * Pos.to_nat p)%nat with (Pos.to_nat p + Pos.to_nat p)%nat by lia.
    now rewrite Nat.iter_add.
  - reflexivity.
Qed.

Lemma iter_shr_exact k q :
  Nat.iter k shr_1 (exact_record (Nat.iter k xO q)) = exact_record q.
Proof.
  induction k as [|k IH]; [reflexivity|].
  rewrite Nat.iter_succ_r. cbn [Nat.iter]. exact IH.
Qed.

Lemma Zpos_iter_xO k q : Zpos (Nat.iter k xO q) = Zpos q * 2 ^ Z.of_nat k.
Proof.
  induction k as [|k IH]; [cbn; lia|].
  change (Nat.iter (S k) xO q) with (xO (Nat.iter k xO q)).
  rewrite Pos2Z.inj_xO, IH, Nat2Z.inj_succ, Z.pow_succ_r by lia.
  lia.
Qed.

Lemma Zpos_pos_iter_xO d q : Zpos (Pos.iter xO q d) = Zpos q * 2 ^ Zpos d.
Proof.
  induction d as [|d IH] using Pos.peano_ind.
  - cbn [Pos.iter]. rewrite Pos2Z.inj_xO. change (2 ^ 1) with 2. lia.
  - rewrite Pos.iter_succ, Pos2Z.inj_xO, IH, Pos2Z.inj_succ, Z.pow_succ_r by lia.
    lia.
Qed.

Lemma shr_exact P Q E n :
  0 <= n -> Zpos P = Zpos Q * 2 ^ n ->
  shr (exact_record P) E n = (exact_record Q, E + n).
Proof.
  intros Hn HP. destruct n as [|p|p]; [| |lia].
  - cbn [shr]. rewrite Z.mul_1_r in HP. injection HP as ->.
    now rewrite Z.add_0_r.
  - cbn [shr]. rewrite iter_pos_nat. f_equal.
    assert (E' : P = Nat.iter (Pos.to_nat p) xO Q).
    { apply Pos2Z.inj. now rewrite Zpos_iter_xO, positive_nat_Z. }
    rewrite E'. apply iter_shr_exact.
Qed.

Lemma bra_exact s P Q E n :
  0 <= n -> Zpos P = Zpos Q * 2 ^ n ->
  fexp prec emax (Zpos (digits2_pos Q) + (E + n)) = E + n ->
  binary_round_aux prec emax s (Zpos P) E loc_Exact =
  if E + n <=? 971 then S754_finite s Q (E + n) else S754_infinity s.
Proof.
  intros Hn HP Hc. unfold binary_round_aux, shr_fexp.
  cbn [Zdigits2 shr_record_of_loc].
  rewrite (digits_mul_pow2 P Q n Hn HP).
  replace (Zpos (digits2_pos Q) + n + E) with (Zpos (digits2_pos Q) + (E + n)) by lia.
  rewrite Hc. replace (E + n - E) with n by lia.
  fold (exact_record P). rewrite (shr_exact P Q E n Hn HP).
  cbn [exact_record shr_m loc_of_shr_record round_nearest_even Zdigits2 shr_record_of_loc].
  rewrite Hc, Z.sub_diag. cbn [shr shr_m].
  reflexivity.
Qed.

Lemma shl_align_spec m e e' :
  shl_align m e e' =
  if e' <? e then (Z.to_pos (Zpos m * 2 ^ (e - e')), e') else (m, e).
Proof.
  unfold shl_align. destruct (Z.ltb_spec e' e) as [Hlt|Hge].
  - destruct (e' - e) as [|d|d] eqn:D; try lia.
    f_equal. apply Pos2Z.inj. rewrite Zpos_pos_iter_xO.
    replace (e - e') with (Zpos d) by lia.
    rewrite Z2Pos.id; [reflexivity|].
    apply Z.mul_pos_pos; [lia|]. apply Z.pow_pos_nonneg; lia.
  - destruct (e' - e) as [|d|d] eqn:D; try lia; reflexivity.
Qed.

(** Rounding the number [M * 2^E] that equals the canonical float
    [(Q, e')] returns that float. [e0] is any exponent below both. *)
Lemma binary_round_exact s M E Q e' :
  fexp prec emax (Zpos (digits2_pos Q) + e') = e' ->
  Zpos M * 2 ^ (E - Z.min E e') = Zpos Q * 2 ^ (e' - Z.min E e') ->
  binary_round prec emax s M E =
  if e' <=? 971 then S754_finite s Q e' else S754_infinity s.
Proof.
  intros Hc Hv. unfold binary_round.
  assert (Hd : Zpos (digits2_pos M) + E = Zpos (digits2_pos Q) + e').
  { pose proof (Z.log2_mul_pow2 (Zpos M) (E - Z.min E e') ltac:(lia) ltac:(lia)) as L1.
    pose proof (Z.log2_mul_pow2 (Zpos Q) (e' - Z.min E e') ltac:(lia) ltac:(lia)) as L2.
    rewrite Hv in L1. rewrite !digits_log2. lia. }
  rewrite Hd, Hc, shl_align_spec.
  destruct (Z.ltb_spec e' E) as [Hlt|Hge].
  - rewrite Z.min_r in Hv by lia. rewrite Z.sub_diag, Z.mul_1_r in Hv.
    rewrite Hv, Pos2Z.id.
    pose proof (bra_exact s Q Q e' 0 ltac:(lia) ltac:(lia)) as B.
    rewrite !Z.add_0_r in B. now apply B.
  - rewrite Z.min_l in Hv by lia. rewrite Z.sub_diag, Z.mul_1_r in Hv.
    pose proof (bra_exact s M Q E (e' - E) ltac:(lia) Hv) as B.
    replace (E + (e' - E)) with e' in B by lia. now apply B.
Qed.

Lemma pow2_pos n : 0 <= n -> 0 < 2 ^ n.
Proof. intros. apply Z.pow_pos_nonneg; lia. Qed.

Lemma pow2_sum a b : 0 <= a -> 0 <= b -> 2 ^ (a + b) = 2 ^ a * 2 ^ b.
Proof. intros. apply Z.pow_add_r; assumption. Qed.

Lemma digits_le_53 K : Zpos K < 2 ^ 53 -> Zpos (digits2_pos K) <= 53.
Proof.
  intros HK. pose proof (digits_bounds K) as [Hl _].
  destruct (Z.le_gt_cases (Zpos (digits2_pos K)) 53) as [|Hgt]; [assumption|].
  assert (2 ^ 53 <= 2 ^ (Zpos (digits2_pos K) - 1)) by (apply Z.pow_le_mono_r; lia).
  lia.
Qed.

(** The canonical float of a number [K * 2^e] with [K < 2^53]. *)
Lemma canonical_exists K e :
  Zpos K < 2 ^ 53 -> -1074 <= e <= 971 ->
  exists Q e',
    bounded prec emax Q e' = true /\ e' <= e /\ -1074 <= e' /\
    Zpos Q = Zpos K * 2 ^ (e - e').
Proof.
  intros HK He. pose proof (digits_le_53 K HK) as Hd.
  set (d := Zpos (digits2_pos K)) in *.
  set (e' := Z.max (d + e - 53) (-1074)).
  assert (He' : e' <= e /\ -1074 <= e') by lia.
  assert (Hpos : 0 < Zpos K * 2 ^ (e - e')).
  { apply Z.mul_pos_pos; [lia|]. apply pow2_pos. lia. }
  exists (Z.to_pos (Zpos K * 2 ^ (e - e'))), e'.
  assert (HQ : Zpos (Z.to_pos (Zpos K * 2 ^ (e - e'))) = Zpos K * 2 ^ (e - e'))
    by (apply Z2Pos.id; exact Hpos).
  split; [|split; [lia|split; [lia|exact HQ]]].
  apply bounded_spec.
  rewrite (digits_mul_pow2 _ K (e - e') ltac:(lia) HQ). fold d. lia.
Qed.

Lemma round_val s M E K e :
  Zpos M * 2 ^ (E + 1074) = Zpos K * 2 ^ (e + 1074) ->
  -1074 <= E -> Zpos K < 2 ^ 53 -> -1074 <= e <= 971 ->
  exists Q e',
    binary_round prec emax s M E = S754_finite s Q e' /\
    bounded prec emax Q e' = true /\
    Zpos Q * 2 ^ (e' + 1074) = Zpos K * 2 ^ (e + 1074).
Proof.
  intros Hv HE HK He.
  destruct (canonical_exists K e HK He) as (Q & e' & Hb & Hle & Hge & HQ).
  exists Q, e'.
  assert (HQv : Zpos Q * 2 ^ (e' + 1074) = Zpos K * 2 ^ (e + 1074)).
  { rewrite HQ, <- Z.mul_assoc, <- (pow2_sum (e - e') (e' + 1074)) by lia.
    do 2 f_equal. lia. }
  split; [|split; [exact Hb|exact HQv]].
  apply bounded_spec in Hb as Hb'.
  rewrite (binary_round_exact s M E Q e').
  - destruct (Z.leb_spec e' 971); [reflexivity|lia].
  - rewrite fexp_eq. lia.
  - set (e0 := Z.min E e').
    assert (H0 : -1074 <= e0 /\ e0 <= E /\ e0 <= e') by lia.
    apply (Z.mul_cancel_r _ _ (2 ^ (e0 + 1074))).
    + pose proof (pow2_pos (e0 + 1074)). lia.
    + rewrite <- !Z.mul_assoc.
      rewrite <- (pow2_sum (E - e0) (e0 + 1074)) by lia.
      rewrite <- (pow2_sum (e' - e0) (e0 + 1074)) by lia.
      replace (E - e0 + (e0 + 1074)) with (E + 1074) by lia.
      replace (e' - e0 + (e0 + 1074)) with (e' + 1074) by lia.
      lia.
Qed.

(** A nonzero number [M * 2^E] equal to [K * 2^e] with [|K| < 2^53]
    is normalized without rounding. *)
Lemma normalize_val M E K e sz :
  M <> 0 ->
  M * 2 ^ (E + 1074) = K * 2 ^ (e + 1074) ->
  -1074 <= E -> Z.abs K < 2 ^ 53 -> -1074 <= e <= 971 ->
  valid (binary_normalize prec emax M E sz) = true /\
  is_finite (binary_normalize prec emax M E sz) = true /\
  val (binary_normalize prec emax M E sz) = K * 2 ^ (e + 1074).
Proof.
  intros HM Hv HE HK He.
  pose proof (pow2_pos (E + 1074) ltac:(lia)) as P1.
  pose proof (pow2_pos (e + 1074) ltac:(lia)) as P2.
  destruct M as [|M|M]; [congruence| |]; cbn [binary_normalize].
  - destruct K as [|K|K]; try (exfalso; nia).
    destruct (round_val false M E K e Hv HE ltac:(lia) He) as (Q & e' & -> & Hb & HQ).
    repeat split; [exact Hb|]. cbn [val signed]. exact HQ.
  - destruct K as [|K|K]; try (exfalso; nia).
    assert (Hv' : Zpos M * 2 ^ (E + 1074) = Zpos K * 2 ^ (e + 1074)).
    { change (Z.neg M) with (- Zpos M) in Hv. change (Z.neg K) with (- Zpos K) in Hv. lia. }
    destruct (round_val true M E K e Hv' HE ltac:(lia) He) as (Q & e' & -> & Hb & HQ).
    repeat split; [exact Hb|]. cbn [val signed].
    change (Z.neg Q) with (- Zpos Q). change (Z.neg K) with (- Zpos K). lia.
Qed.

Lemma f64_val z :
  Z.abs z < 2 ^ 53 ->
  valid (f64 z) = true /\ is_finite (f64 z) = true /\ val (f64 z) = z * 2 ^ 1074.
Proof.
  intros Hz. destruct (Z.eq_dec z 0) as [->|Hne]; [repeat split|].
  unfold f64. apply (normalize_val z 0 z 0); lia.
Qed.

Lemma valid_exponent s m e : valid (S754_finite s m e) = true -> -1074 <= e <= 971.
Proof. intros H. apply bounded_spec in H. lia. Qed.

Lemma aligned_val s m e ez :
  -1074 <= ez <= e ->
  cond_Zopp s (Zpos (fst (shl_align m e ez))) * 2 ^ (ez + 1074) =
  val (S754_finite s m e).
Proof.
  intros Hz. rewrite shl_align_spec. cbn [val].
  assert (E : Zpos (fst (if ez <? e then (Z.to_pos (Zpos m * 2 ^ (e - ez)), ez) else (m, e)))
              = Zpos m * 2 ^ (e - ez)).
  { destruct (Z.ltb_spec ez e); cbn [fst].
    - apply Z2Pos.id. apply Z.mul_pos_pos; [lia|]. apply pow2_pos. lia.
    - replace (e - ez) with 0 by lia. lia. }
  rewrite E. replace (e + 1074) with ((e - ez) + (ez + 1074)) by lia.
  rewrite (pow2_sum (e - ez) (ez + 1074)) by lia. unfold cond_Zopp, signed.
  destruct s; [change (Z.neg m) with (- Zpos m)|]; ring.
Qed.

(** Addition and subtraction are exact when the exact result is
    [K * 2^e] with [|K| < 2^53]. *)
Lemma fadd_val x y K e :
  valid x = true -> valid y = true ->
  is_finite x = true -> is_finite y = true ->
  val x + val y = K * 2 ^ (e + 1074) ->
  Z.abs K < 2 ^ 53 -> -1074 <= e <= 971 ->
  valid (fadd x y) = true /\ is_finite (fadd x y) = true /\
  val (fadd x y) = val x + val y.
Proof.
  intros Vx Vy Fx Fy Hv HK He.
  destruct x as [sx|sx| |sx mx ex], y as [sy|sy| |sy my ey]; try discriminate.
  - destruct sx, sy; repeat split.
  - repeat split; assumption.
  - cbn [fadd SFadd val]. rewrite Z.add_0_r. repeat split; assumption.
  - pose proof (valid_exponent _ _ _ Vx). pose proof (valid_exponent _ _ _ Vy).
    unfold fadd. cbn [SFadd]. set (ez := Z.min ex ey).
    set (M := cond_Zopp sx (Zpos (fst (shl_align mx ex ez))) +
              cond_Zopp sy (Zpos (fst (shl_align my ey ez)))).
    assert (HM : M * 2 ^ (ez + 1074) =
                 val (S754_finite sx mx ex) + val (S754_finite sy my ey)).
    { unfold M. rewrite Z.mul_add_distr_r, !aligned_val by lia. reflexivity. }
    destruct (Z.eq_dec M 0) as [E0|Hne].
    + rewrite <- HM, E0. cbn [binary_normalize]. repeat split.
    + rewrite <- HM. rewrite <- HM in Hv.
      destruct (normalize_val M ez K e false Hne Hv ltac:(lia) HK He) as (V & F & Ev).
      repeat split; [exact V|exact F|]. rewrite Ev. symmetry. exact Hv.
Qed.

Lemma fsub_val x y K e :
  valid x = true -> valid y = true ->
  is_finite x = true -> is_finite y = true ->
  val x - val y = K * 2 ^ (e + 1074) ->
  Z.abs K < 2 ^ 53 -> -1074 <= e <= 971 ->
  valid (fsub x y) = true /\ is_finite (fsub x y) = true /\
  val (fsub x y) = val x - val y.
Proof.
  intros Vx Vy Fx Fy Hv HK He.
  destruct x as [sx|sx| |sx mx ex], y as [sy|sy| |sy my ey]; try discriminate.
  - destruct sx, sy; repeat split.
  - cbn [fsub SFsub val]. repeat split; [exact Vy|].
    unfold signed. destruct sy; cbn [negb];
      [change (Z.neg my) with (- Zpos my)|change (Z.neg my) with (- Zpos my)]; lia.
  - cbn [fsub SFsub val]. rewrite Z.sub_0_r. repeat split; assumption.
  - pose proof (valid_exponent _ _ _ Vx). pose proof (valid_exponent _ _ _ Vy).
    unfold fsub. cbn [SFsub]. set (ez := Z.min ex ey).
    set (M := cond_Zopp sx (Zpos (fst (shl_align mx ex ez))) -
              cond_Zopp sy (Zpos (fst (shl_align my ey ez)))).
    assert (HM : M * 2 ^ (ez + 1074) =
                 val (S754_finite sx mx ex) - val (S754_finite sy my ey)).
    { unfold M. rewrite Z.mul_sub_distr_r, !aligned_val by lia. reflexivity. }
    destruct (Z.eq_dec M 0) as [E0|Hne].
    + rewrite <- HM, E0. cbn [binary_normalize]. repeat split.
    + rewrite <- HM. rewrite <- HM in Hv.
      destruct (normalize_val M ez K e false Hne Hv ltac:(lia) HK He) as (V & F & Ev).
      repeat split; [exact V|exact F|]. rewrite Ev. symmetry. exact Hv.
Qed.

Lemma signed_mul sx mx sy my :
  signed sx mx * signed sy my = signed (xorb sx sy) (mx * my).
Proof. destruct sx, sy; reflexivity. Qed.

Lemma signed_abs s m : signed s m = (if s then -1 else 1) * Zpos m.
Proof. destruct s; reflexivity. Qed.

(** The product of two valid floats needs no left shift before it is
    rounded: its exponent is at most the canonical one. *)
Lemma product_exponent mx ex my ey :
  bounded prec emax mx ex = true -> bounded prec emax my ey = true ->
  ex + ey <= fexp prec emax (Zpos (digits2_pos (mx * my)) + (ex + ey)).
Proof.
  intros Hx Hy. rewrite fexp_eq.
  apply bounded_spec in Hx as (Hdx & Hex & Hnx).
  apply bounded_spec in Hy as (Hdy & Hey & Hny).
  pose proof (Z.log2_mul_below (Zpos mx) (Zpos my) ltac:(lia) ltac:(lia)) as L.
  pose proof (digits_log2 mx). pose proof (digits_log2 my).
  pose proof (digits_log2 (mx * my)) as Hd. rewrite Pos2Z.inj_mul in Hd.
  pose proof (Pos2Z.is_pos (digits2_pos mx)).
  pose proof (Pos2Z.is_pos (digits2_pos my)).
  lia.
Qed.

(** Multiplication is exact when the exact product is [K * 2^e] with
    [|K| < 2^53]; values carry the scale [2^1074] once each. *)
Lemma fmul_val x y K e :
  valid x = true -> valid y = true ->
  is_finite x = true -> is_finite y = true ->
  val x * val y = K * 2 ^ (e + 1074) * 2 ^ 1074 ->
  Z.abs K < 2 ^ 53 -> -1074 <= e <= 971 ->
  valid (fmul x y) = true /\ is_finite (fmul x y) = true /\
  val (fmul x y) = K * 2 ^ (e + 1074).
Proof.
  intros Vx Vy Fx Fy Hv HK He.
  assert (P0 : 0 < 2 ^ (e + 1074)) by (apply pow2_pos; lia).
  assert (P1 : 0 < 2 ^ 1074) by (apply pow2_pos; lia).
  destruct x as [sx|sx| |sx mx ex], y as [sy|sy| |sy my ey]; try discriminate;
    try (cbn [val] in Hv; rewrite ?Z.mul_0_l, ?Z.mul_0_r in Hv;
         assert (K = 0) by nia; subst K; repeat split).
  pose proof (valid_exponent _ _ _ Vx) as Ex.
  pose proof (valid_exponent _ _ _ Vy) as Ey.
  assert (Px : 0 < 2 ^ (ex + 1074)) by (apply pow2_pos; lia).
  assert (Py : 0 < 2 ^ (ey + 1074)) by (apply pow2_pos; lia).
  cbn [val] in Hv.
  assert (Hv' : signed (xorb sx sy) (mx * my) * (2 ^ (ex + 1074) * 2 ^ (ey + 1074)) =
                K * (2 ^ (e + 1074) * 2 ^ 1074)).
  { rewrite <- signed_mul.
    replace (K * (2 ^ (e + 1074) * 2 ^ 1074)) with (K * 2 ^ (e + 1074) * 2 ^ 1074) by ring.
    rewrite <- Hv. ring. }
  assert (HKabs : Zpos (mx * my) * (2 ^ (ex + 1074) * 2 ^ (ey + 1074)) =
                  Z.abs K * (2 ^ (e + 1074) * 2 ^ 1074) /\
                  K = (if xorb sx sy then -1 else 1) * Z.abs K).
  { rewrite signed_abs in Hv'. destruct (xorb sx sy); split; nia. }
  destruct HKabs as [Habs Hsign].
  assert (HKpos : 0 < Z.abs K) by nia.
  destruct (Z.abs K) as [|Kp|Kp] eqn:EK; try lia.
  destruct (canonical_exists Kp e HK He) as (Q & e' & Hb & Hle & Hge & HQ).
  pose proof (product_exponent mx ex my ey Vx Vy) as Hn.
  (* the two sides have the same number of digits above their exponents *)
  assert (Hval : Zpos (mx * my) * 2 ^ (ex + ey + 2148) = Zpos Q * 2 ^ (e' + 2148)).
  { replace (ex + ey + 2148) with ((ex + 1074) + (ey + 1074)) by lia.
    rewrite (pow2_sum (ex + 1074) (ey + 1074)) by lia.
    rewrite Habs, HQ.
    replace (e + 1074) with ((e - e') + (e' + 1074)) by lia.
    rewrite (pow2_sum (e - e') (e' + 1074)) by lia.
    replace (e' + 2148) with ((e' + 1074) + 1074) by lia.
    rewrite (pow2_sum (e' + 1074) 1074) by lia. ring. }
  assert (Hdig : Zpos (digits2_pos (mx * my)) + (ex + ey) = Zpos (digits2_pos Q) + e').
  { pose proof (Z.log2_mul_pow2 (Zpos (mx * my)) (ex + ey + 2148) ltac:(lia) ltac:(lia)) as L1.
    pose proof (Z.log2_mul_pow2 (Zpos Q) (e' + 2148) ltac:(lia) ltac:(lia)) as L2.
    rewrite Hval in L1. rewrite !digits_log2. lia. }
  apply bounded_spec in Hb as Hb'.
  assert (Hcan : fexp prec emax (Zpos (digits2_pos Q) + e') = e')
    by (rewrite fexp_eq; lia).
  rewrite Hdig, Hcan in Hn.
  assert (HP : Zpos (mx * my) = Zpos Q * 2 ^ (e' - (ex + ey))).
  { apply (Z.mul_cancel_r _ _ (2 ^ (ex + ey + 2148))).
    - pose proof (pow2_pos (ex + ey + 2148)). lia.
    - rewrite Hval, <- Z.mul_assoc, <- pow2_sum by lia. do 2 f_equal. lia. }
  unfold fmul. cbn [SFmul].
  rewrite (bra_exact _ (mx * my) Q (ex + ey) (e' - (ex + ey)) ltac:(lia) HP)
    by (replace (ex + ey + (e' - (ex + ey))) with e' by lia; exact Hcan).
  replace (ex + ey + (e' - (ex + ey))) with e' by lia.
  destruct (Z.leb_spec e' 971); [|lia].
  split; [exact Hb|]. split; [reflexivity|].
  cbn [val]. rewrite signed_abs, Hsign, HQ.
  replace (e + 1074) with ((e - e') + (e' + 1074)) by lia.
  rewrite (pow2_sum (e - e') (e' + 1074)) by lia. ring.
Qed.

Lemma Ldexp_normal s m e k :
  Zpos (digits2_pos m) = 53 -> -1074 <= e + k <= 971 ->
  Ldexp (S754_finite s m e) k = S754_finite s m (e + k).
Proof.
  intros Hd Hk. unfold Ldexp. cbn [SFldexp].
  rewrite (binary_round_exact s m (e + k) m (e + k)).
  - destruct (Z.leb_spec (e + k) 971); [reflexivity|lia].
  - rewrite fexp_eq. lia.
  - reflexivity.
Qed.

Lemma div_eucl_exact a b q : 0 < b -> a = q * b -> Z.div_eucl a b = (q, 0).
Proof.
  intros Hb ->. pose proof (Z.div_mul q b ltac:(lia)) as Hq.
  pose proof (Z.mod_mul q b ltac:(lia)) as Hr.
  unfold Z.div, Z.modulo in Hq, Hr.
  destruct (Z.div_eucl (q * b) b) as [q' r']. now subst.
Qed.

(** Dividing a normal float by a power of two only lowers its
    exponent. *)
Lemma fdiv_pow2 s m e k :
  Zpos (digits2_pos m) = 53 -> -1073 <= e - 52 - k <= 971 ->
  fdiv (S754_finite s m e) (S754_finite false (2 ^ 52) k) =
  S754_finite s m (e - 52 - k).
Proof.
  intros Hd Hr. unfold fdiv. cbn [SFdiv]. unfold SFdiv_core_binary.
  cbn [Zdigits2]. rewrite Hd.
  change (Zpos (digits2_pos (2 ^ 52))) with 53.
  replace (53 + e - (53 + k)) with (e - k) by lia.
  rewrite fexp_eq.
  replace (Z.min (Z.max (e - k - 53) (-1074)) (e - k)) with (e - k - 53) by lia.
  replace (e - k - (e - k - 53)) with 53 by lia. cbv iota.
  rewrite (div_eucl_exact _ _ (Zpos m~0)).
  2: reflexivity.
  2:{ rewrite Z.shiftl_mul_pow2 by lia. change (Zpos m~0) with (2 * Zpos m).
      change (2 ^ 53) with (2 * Zpos (2 ^ 52)). ring. }
  change (new_location (Zpos (2 ^ 52)) 0) with loc_Exact.
  rewrite xorb_false_r.
  rewrite (bra_exact s (m~0) m (e - k - 53) 1 ltac:(lia)).
  - replace (e - k - 53 + 1) with (e - 52 - k) by lia.
    destruct (Z.leb_spec (e - 52 - k) 971); [reflexivity|lia].
  - change (Zpos m~0) with (2 * Zpos m). change (2 ^ 1) with 2. lia.
  - rewrite fexp_eq. lia.
Qed.

(** ** The range codec on axis codes *)

Lemma f64_normal z :
  0 < z < 2 ^ 53 ->
  exists m e,
    f64 z = S754_finite false m e /\ Zpos (digits2_pos m) = 53 /\
    -52 <= e <= 0 /\ Zpos m * 2 ^ (e + 1074) = z * 2 ^ 1074.
Proof.
  intros Hz. destruct z as [|zp|zp]; try lia.
  unfold f64. cbn [binary_normalize].
  destruct (round_val false zp 0 zp 0 eq_refl ltac:(lia) ltac:(lia) ltac:(lia))
    as (Q & e' & -> & Hb & HQ).
  exists Q, e'. split; [reflexivity|].
  apply bounded_spec in Hb as (Hd & He & Hn).
  pose proof (digits_bounds Q) as [Hlo Hhi].
  change (0 + 1074) with 1074 in HQ.
  assert (P : 0 < 2 ^ (e' + 1074)) by (apply pow2_pos; lia).
  assert (HQ53 : Zpos Q < 2 ^ 53).
  { eapply Z.lt_le_trans; [exact Hhi|]. apply Z.pow_le_mono_r; lia. }
  (* the exponent is above -53: otherwise the value is below 2^1074 *)
  assert (Hge : -52 <= e').
  { destruct (Z.le_gt_cases (-52) e') as [|Hlt]; [assumption|exfalso].
    assert (2 ^ (e' + 1074) <= 2 ^ 1021) by (apply Z.pow_le_mono_r; lia).
    assert (Zpos Q * 2 ^ (e' + 1074) < 2 ^ 53 * 2 ^ 1021) by nia.
    change (2 ^ 53 * 2 ^ 1021) with (2 ^ 1074) in *. nia. }
  assert (Hd53 : Zpos (digits2_pos Q) = 53) by lia.
  rewrite Hd53 in Hlo. change (2 ^ (53 - 1)) with (2 ^ 52) in Hlo.
  assert (Hle : e' <= 0).
  { destruct (Z.le_gt_cases e' 0) as [|Hgt]; [assumption|exfalso].
    assert (2 ^ 1075 <= 2 ^ (e' + 1074)) by (apply Z.pow_le_mono_r; lia).
    assert (2 ^ 52 * 2 ^ 1075 <= Zpos Q * 2 ^ (e' + 1074)) by nia.
    assert (Zpos zp * 2 ^ 1074 < 2 ^ 53 * 2 ^ 1074) by lia.
    change (2 ^ 52 * 2 ^ 1075) with (2 ^ 53 * 2 ^ 1074) in *. lia. }
  repeat split; lia.
Qed.

Lemma exp232_eq : exp232 = S754_finite false (2 ^ 52) (-20).
Proof. reflexivity. Qed.

(** [float64(X) / exp232] is exactly [X / 2^32]. *)
Lemma axis_fraction_val X :
  0 <= X < 2 ^ 32 ->
  valid (fdiv (f64 X) exp232) = true /\
  is_finite (fdiv (f64 X) exp232) = true /\
  val (fdiv (f64 X) exp232) = X * 2 ^ 1042.
Proof.
  intros HX. destruct (Z.eq_dec X 0) as [->|Hne]; [repeat split|].
  destruct (f64_normal X ltac:(lia)) as (m & e & -> & Hd & He & Hv).
  rewrite exp232_eq, fdiv_pow2 by lia.
  replace (e - 52 - -20) with (e - 32) by lia.
  split; [|split; [reflexivity|]].
  - apply bounded_spec. lia.
  - cbn [val signed].
    apply (Z.mul_cancel_r _ _ (2 ^ 32)); [lia|].
    rewrite <- !Z.mul_assoc, <- pow2_sum by lia.
    replace (e - 32 + 1074 + 32) with (e + 1074) by lia.
    change (2 ^ 1042 * 2 ^ 32) with (2 ^ 1074). exact Hv.
Qed.

Lemma decodeRange_90_val X :
  0 <= X < 2 ^ 32 ->
  valid (decodeRange X (f64 90)) = true /\
  is_finite (decodeRange X (f64 90)) = true /\
  val (decodeRange X (f64 90)) = 45 * (X - 2 ^ 31) * 2 ^ 1044.
Proof.
  intros HX. unfold decodeRange.
  destruct (axis_fraction_val X HX) as (Vp & Fp & Ep).
  set (p := fdiv (f64 X) exp232) in *.
  change (fmul (f64 2) (f64 90)) with (f64 180).
  destruct (f64_val 180 ltac:(lia)) as (V180 & F180 & E180).
  destruct (f64_val 90 ltac:(lia)) as (V90 & F90 & E90).
  destruct (fmul_val (f64 180) p (45 * X) (-30) V180 Vp F180 Fp) as (Vt & Ft & Et).
  { rewrite E180, Ep. change (-30 + 1074) with 1044.
    change (2 ^ 1044) with (4 * 2 ^ 1042). ring. }
  { change (2 ^ 53) with (2 ^ 21 * 2 ^ 32). lia. }
  { lia. }
  change (-30 + 1074) with 1044 in Et.
  destruct (fsub_val (fmul (f64 180) p) (f64 90) (45 * (X - 2 ^ 31)) (-30)
              Vt V90 Ft F90) as (Vr & Fr & Er).
  { rewrite Et, E90. change (-30 + 1074) with 1044.
    change (2 ^ 1074) with (2 ^ 30 * 2 ^ 1044).
    change (2 ^ 31) with (2 * 2 ^ 30). ring. }
  { change (2 ^ 53) with (2 ^ 22 * 2 ^ 31). lia. }
  { lia. }
  split; [exact Vr|]. split; [exact Fr|].
  rewrite Er, Et, E90.
  change (2 ^ 1074) with (2 ^ 30 * 2 ^ 1044).
  change (2 ^ 31) with (2 * 2 ^ 30). ring.
Qed.

Lemma decodeRange_180_val Y :
  0 <= Y < 2 ^ 32 ->
  valid (decodeRange Y (f64 180)) = true /\
  is_finite (decodeRange Y (f64 180)) = true /\
  val (decodeRange Y (f64 180)) = 45 * (Y - 2 ^ 31) * 2 ^ 1045.
Proof.
  intros HY. unfold decodeRange.
  destruct (axis_fraction_val Y HY) as (Vp & Fp & Ep).
  set (p := fdiv (f64 Y) exp232) in *.
  change (fmul (f64 2) (f64 180)) with (f64 360).
  destruct (f64_val 360 ltac:(lia)) as (V360 & F360 & E360).
  destruct (f64_val 180 ltac:(lia)) as (V180 & F180 & E180).
  destruct (fmul_val (f64 360) p (45 * Y) (-29) V360 Vp F360 Fp) as (Vt & Ft & Et).
  { rewrite E360, Ep. change (-29 + 1074) with 1045.
    change (2 ^ 1045) with (8 * 2 ^ 1042). ring. }
  { change (2 ^ 53) with (2 ^ 21 * 2 ^ 32). lia. }
  { lia. }
  change (-29 + 1074) with 1045 in Et.
  destruct (fsub_val (fmul (f64 360) p) (f64 180) (45 * (Y - 2 ^ 31)) (-29)
              Vt V180 Ft F180) as (Vr & Fr & Er).
  { rewrite Et, E180. change (-29 + 1074) with 1045.
    change (2 ^ 1074) with (2 ^ 29 * 2 ^ 1045).
    change (2 ^ 31) with (4 * 2 ^ 29). ring. }
  { change (2 ^ 53) with (2 ^ 22 * 2 ^ 31). lia. }
  { lia. }
  split; [exact Vr|]. split; [exact Fr|].
  rewrite Er, Et, E180.
  change (2 ^ 1074) with (2 ^ 29 * 2 ^ 1045).
  change (2 ^ 31) with (4 * 2 ^ 29). ring.
Qed.

(** ** Bounding boxes *)

Lemma clear_low_bits X a i :
  0 <= a -> 0 <= i ->
  Z.testbit (clear_low X a) i = (a <=? i) && Z.testbit X i.
Proof.
  intros Ha Hi. unfold clear_low. destruct (Z.leb_spec a i).
  - rewrite Z.shiftl_spec, Z.shiftr_spec by lia. cbn [andb]. f_equal. lia.
  - now rewrite Z.shiftl_spec_low by lia.
Qed.

Lemma clear_low_eq X a : 0 <= a -> clear_low X a = X / 2 ^ a * 2 ^ a.
Proof.
  intros Ha. unfold clear_low.
  now rewrite Z.shiftl_mul_pow2, Z.shiftr_div_pow2 by lia.
Qed.

Lemma clear_low_bounds X a :
  0 <= a <= 32 -> 0 <= X < 2 ^ 32 ->
  0 <= clear_low X a <= X /\ X < clear_low X a + 2 ^ a /\
  clear_low X a + 2 ^ a <= 2 ^ 32.
Proof.
  intros Ha HX. rewrite clear_low_eq by lia.
  assert (P : 0 < 2 ^ a) by (apply pow2_pos; lia).
  pose proof (Z.div_mod X (2 ^ a) ltac:(lia)) as E.
  pose proof (Z.mod_pos_bound X (2 ^ a) P) as M.
  assert (Q0 : 0 <= X / 2 ^ a) by (apply Z.div_pos; lia).
  assert (E32 : 2 ^ 32 = 2 ^ (32 - a) * 2 ^ a)
    by (rewrite <- pow2_sum by lia; f_equal; lia).
  assert (Q1 : X / 2 ^ a < 2 ^ (32 - a)).
  { apply Z.div_lt_upper_bound; [lia|]. rewrite Z.mul_comm, <- E32. lia. }
  repeat split; try nia.
Qed.

Lemma deinterleave_truncated X Y n :
  0 <= X < 2 ^ 32 -> 0 <= Y < 2 ^ 32 -> 0 <= n <= 63 ->
  deinterleave (shl64 (shr64 (interleave X Y) n) n) =
  (clear_low X ((n + 1) / 2), clear_low Y (n / 2)).
Proof.
  intros HX HY Hn.
  assert (Ha : 2 * ((n + 1) / 2) <= n + 1 <= 2 * ((n + 1) / 2) + 1).
  { pose proof (Z.div_mod (n + 1) 2 ltac:(lia)).
    pose proof (Z.mod_pos_bound (n + 1) 2 ltac:(lia)). lia. }
  assert (Hb : 2 * (n / 2) <= n <= 2 * (n / 2) + 1).
  { pose proof (Z.div_mod n 2 ltac:(lia)).
    pose proof (Z.mod_pos_bound n 2 ltac:(lia)). lia. }
  set (a := (n + 1) / 2) in *. set (b := n / 2) in *.
  pose proof (interleave_range X Y) as Hh. set (h := interleave X Y) in *.
  assert (Hbits : forall j, 0 <= j < 64 ->
            Z.testbit h j = if Z.even j then Z.testbit X (j / 2) else Z.testbit Y (j / 2))
    by (intros j Hj; now apply interleave_bits).
  unfold shr64, shl64.
  destruct (Z.leb_spec 64 n) as [|_]; [lia|].
  fold (clear_low h n).
  assert (Hc : 0 <= clear_low h n <= h).
  { rewrite clear_low_eq by lia.
    assert (P : 0 < 2 ^ n) by (apply pow2_pos; lia).
    pose proof (Z.div_mod h (2 ^ n) ltac:(lia)).
    pose proof (Z.mod_pos_bound h (2 ^ n) P).
    assert (0 <= h / 2 ^ n) by (apply Z.div_pos; lia). nia. }
  rewrite wrap64_small by lia.
  unfold deinterleave. f_equal; apply Z.bits_inj'; intros i Hi.
  - rewrite squash_bits, !clear_low_bits by lia.
    destruct (Z.ltb_spec i 32); cbn [andb].
    + rewrite Hbits, even_double, half_double by lia.
      f_equal. destruct (Z.leb_spec n (2 * i)), (Z.leb_spec a i);
        try reflexivity; exfalso; lia.
    + rewrite (testbit_high 32 X) by (assumption || lia). now rewrite andb_false_r.
  - unfold shr64. change (64 <=? 1) with false. cbv iota.
    rewrite squash_bits; [|rewrite Z.shiftr_div_pow2 by lia; split;
                           [apply Z.div_pos; lia | apply Z.div_lt_upper_bound; lia]|lia].
    rewrite Z.shiftr_spec, !clear_low_bits by lia.
    destruct (Z.ltb_spec i 32); cbn [andb].
    + rewrite Hbits, even_double_succ, half_double_succ by lia.
      f_equal. destruct (Z.leb_spec n (2 * i + 1)), (Z.leb_spec b i);
        try reflexivity; exfalso; lia.
    + rewrite (testbit_high 32 Y) by (assumption || lia). now rewrite andb_false_r.
Qed.

Lemma f64_180_eq : f64 180 = S754_finite false 6333186975989760 (-45).
Proof. reflexivity. Qed.

Lemma f64_360_eq : f64 360 = S754_finite false 6333186975989760 (-44).
Proof. reflexivity. Qed.

Lemma errorWithPrecision_eq bits :
  0 <= bits <= 64 ->
  errorWithPrecision bits =
  (S754_finite false 6333186975989760 (-45 - bits / 2),
   S754_finite false 6333186975989760 (-44 - (bits - bits / 2))).
Proof.
  intros Hb. unfold errorWithPrecision, int_of_uint.
  rewrite wrap64_small by lia.
  destruct (Z.ltb_spec bits (2 ^ 63)); [|lia].
  rewrite Z.quot_div_nonneg by lia.
  assert (Hq : 2 * (bits / 2) <= bits <= 2 * (bits / 2) + 1).
  { pose proof (Z.div_mod bits 2 ltac:(lia)).
    pose proof (Z.mod_pos_bound bits 2 ltac:(lia)). lia. }
  rewrite f64_180_eq, f64_360_eq, !Ldexp_normal by (try reflexivity; lia).
  f_equal; f_equal; lia.
Qed.

(** The corners of the box of a hash at [bits] bits of precision, as
    exact values: the axis codes with their low bits cleared give the
    minimum corner and one cell more gives the maximum corner. *)
Lemma box_values X Y bits :
  0 <= X < 2 ^ 32 -> 0 <= Y < 2 ^ 32 -> 1 <= bits <= 64 ->
  let B := BoundingBoxIntWithPrecision
             (shr64 (interleave X Y) (wrap64 (64 - bits))) bits in
  let a := 32 - bits / 2 in
  let b := 32 - (bits - bits / 2) in
  (valid (MinLat B) = true /\ is_finite (MinLat B) = true /\
   val (MinLat B) = 45 * (clear_low X a - 2 ^ 31) * 2 ^ 1044) /\
  (valid (MaxLat B) = true /\ is_finite (MaxLat B) = true /\
   val (MaxLat B) = 45 * (clear_low X a - 2 ^ 31 + 2 ^ a) * 2 ^ 1044) /\
  (valid (MinLng B) = true /\ is_finite (MinLng B) = true /\
   val (MinLng B) = 45 * (clear_low Y b - 2 ^ 31) * 2 ^ 1045) /\
  (valid (MaxLng B) = true /\ is_finite (MaxLng B) = true /\
   val (MaxLng B) = 45 * (clear_low Y b - 2 ^ 31 + 2 ^ b) * 2 ^ 1045).
Proof.
  intros HX HY Hb B a b. subst B. unfold BoundingBoxIntWithPrecision.
  rewrite wrap64_small by lia.
  rewrite deinterleave_truncated by lia.
  rewrite errorWithPrecision_eq by lia.
  assert (Hq : 2 * (bits / 2) <= bits <= 2 * (bits / 2) + 1).
  { pose proof (Z.div_mod bits 2 ltac:(lia)).
    pose proof (Z.mod_pos_bound bits 2 ltac:(lia)). lia. }
  replace ((64 - bits + 1) / 2) with a
    by (subst a; apply (Z.div_unique _ _ _ (64 - bits + 1 - 2 * (32 - bits / 2))); lia).
  replace ((64 - bits) / 2) with b
    by (subst b; apply (Z.div_unique _ _ _ (64 - bits - 2 * (32 - (bits - bits / 2)))); lia).
  assert (Ha : 0 <= a <= 32) by (subst a; lia).
  assert (Hb' : 0 <= b <= 31) by (subst b; lia).
  pose proof (clear_low_bounds X a Ha HX) as (BX1 & BX2 & BX3).
  pose proof (clear_low_bounds Y b ltac:(lia) HY) as (BY1 & BY2 & BY3).
  destruct (decodeRange_90_val (clear_low X a) ltac:(lia)) as (V1 & F1 & E1).
  destruct (decodeRange_180_val (clear_low Y b) ltac:(lia)) as (V2 & F2 & E2).
  cbn [MinLat MaxLat MinLng MaxLng].
  set (latErr := S754_finite false 6333186975989760 (-45 - bits / 2)).
  set (lngErr := S754_finite false 6333186975989760 (-44 - (bits - bits / 2))).
  assert (VE1 : valid latErr = true).
  { apply bounded_spec. change (Zpos (digits2_pos 6333186975989760)) with 53. lia. }
  assert (VE2 : valid lngErr = true).
  { apply bounded_spec. change (Zpos (digits2_pos 6333186975989760)) with 53. lia. }
  assert (EE1 : val latErr = 45 * 2 ^ a * 2 ^ 1044).
  { unfold latErr. cbn [val signed].
    replace (-45 - bits / 2 + 1074) with (a + 997) by (subst a; lia).
    rewrite (pow2_sum a 997) by lia.
    change (Zpos 6333186975989760) with (45 * 2 ^ 47).
    change (2 ^ 1044) with (2 ^ 47 * 2 ^ 997). ring. }
  assert (EE2 : val lngErr = 45 * 2 ^ b * 2 ^ 1045).
  { unfold lngErr. cbn [val signed].
    replace (-44 - (bits - bits / 2) + 1074) with (b + 998) by (subst b; lia).
    rewrite (pow2_sum b 998) by lia.
    change (Zpos 6333186975989760) with (45 * 2 ^ 47).
    change (2 ^ 1045) with (2 ^ 47 * 2 ^ 998). ring. }
  assert (Pa : 0 < 2 ^ a) by (apply pow2_pos; lia).
  assert (Pb : 0 < 2 ^ b) by (apply pow2_pos; lia).
  destruct (fadd_val (decodeRange (clear_low X a) (f64 90)) latErr
              (45 * (clear_low X a - 2 ^ 31 + 2 ^ a)) (-30) V1 VE1 F1 eq_refl)
    as (V3 & F3 & E3).
  { rewrite E1, EE1. change (-30 + 1074) with 1044. ring. }
  { change (2 ^ 53) with (2 ^ 22 * 2 ^ 31).
    change (2 ^ 32) with (2 * 2 ^ 31) in *. lia. }
  { lia. }
  destruct (fadd_val (decodeRange (clear_low Y b) (f64 180)) lngErr
              (45 * (clear_low Y b - 2 ^ 31 + 2 ^ b)) (-29) V2 VE2 F2 eq_refl)
    as (V4 & F4 & E4).
  { rewrite E2, EE2. change (-29 + 1074) with 1045. ring. }
  { change (2 ^ 53) with (2 ^ 22 * 2 ^ 31).
    change (2 ^ 32) with (2 * 2 ^ 31) in *. lia. }
  { lia. }
  repeat split; try assumption.
  - rewrite E3, E1, EE1. ring.
  - rewrite E4, E2, EE2. ring.
Qed.

Lemma clear_low_0 X : clear_low X 0 = X.
Proof. unfold clear_low. now rewrite Z.shiftr_0_r, Z.shiftl_0_r. Qed.

Lemma Contains_spec B lat lng :
  Contains B lat lng = true <->
  (fle (MinLat B) lat = true /\ fle lat (MaxLat B) = true) /\
  (fle (MinLng B) lng = true /\ fle lng (MaxLng B) = true).
Proof.
  unfold Contains. rewrite !andb_true_iff. tauto.
Qed.

(** A point inside the full-precision box of its own axis codes is
    inside the box of every shorter prefix of the hash. *)
Lemma Contains_coarser X Y lat lng bits :
  0 <= X < 2 ^ 32 -> 0 <= Y < 2 ^ 32 ->
  valid lat = true -> valid lng = true -> 1 <= bits <= 64 ->
  Contains (BoundingBoxIntWithPrecision (interleave X Y) 64) lat lng = true ->
  Contains (BoundingBoxIntWithPrecision
              (shr64 (interleave X Y) (wrap64 (64 - bits))) bits) lat lng = true.
Proof.
  intros HX HY Vlat Vlng Hb H64.
  assert (E64 : interleave X Y = shr64 (interleave X Y) (wrap64 (64 - 64))).
  { unfold shr64. change (wrap64 (64 - 64)) with 0. change (64 <=? 0) with false.
    cbv iota. now rewrite Z.shiftr_0_r. }
  rewrite E64 in H64.
  pose proof (box_values X Y 64 HX HY ltac:(lia)) as B64.
  pose proof (box_values X Y bits HX HY Hb) as Bb.
  cbv zeta in B64, Bb.
  change (32 - 64 / 2) with 0 in B64. change (32 - (64 - 64 / 2)) with 0 in B64.
  rewrite !clear_low_0 in B64. change (2 ^ 0) with 1 in B64.
  set (B := BoundingBoxIntWithPrecision
              (shr64 (interleave X Y) (wrap64 (64 - 64))) 64) in *.
  set (C := BoundingBoxIntWithPrecision
              (shr64 (interleave X Y) (wrap64 (64 - bits))) bits) in *.
  assert (Hq : 2 * (bits / 2) <= bits <= 2 * (bits / 2) + 1).
  { pose proof (Z.div_mod bits 2 ltac:(lia)).
    pose proof (Z.mod_pos_bound bits 2 ltac:(lia)). lia. }
  set (a := 32 - bits / 2) in *. set (b := 32 - (bits - bits / 2)) in *.
  pose proof (clear_low_bounds X a ltac:(subst a; lia) HX) as (BX1 & BX2 & BX3).
  pose proof (clear_low_bounds Y b ltac:(subst b; lia) HY) as (BY1 & BY2 & BY3).
  destruct B64 as ((V1 & F1 & E1) & (V2 & F2 & E2) & (V3 & F3 & E3) & (V4 & F4 & E4)).
  destruct Bb as ((W1 & G1 & D1) & (W2 & G2 & D2) & (W3 & G3 & D3) & (W4 & G4 & D4)).
  apply Contains_spec in H64 as ((L1 & L2) & (L3 & L4)).
  apply fle_val in L1 as (_ & Nlat & L1); [|assumption..].
  apply fle_val in L2 as (_ & N2 & L2); [|assumption..].
  apply fle_val in L3 as (_ & Nlng & L3); [|assumption..].
  apply fle_val in L4 as (_ & N4 & L4); [|assumption..].
  assert (P1 : 0 < 2 ^ 1044) by (apply pow2_pos; lia).
  assert (P2 : 0 < 2 ^ 1045) by (apply pow2_pos; lia).
  assert (NF : forall f, is_finite f = true -> is_nan f = false)
    by (intros [] ?; (reflexivity || discriminate)).
  apply Contains_spec. repeat split; apply fle_val; try assumption;
    (split; [auto|split; [auto|]]).
  - rewrite D1. rewrite E1 in L1. nia.
  - rewrite D2. rewrite E2 in L2. nia.
  - rewrite D3. rewrite E3 in L3. nia.
  - rewrite D4. rewrite E4 in L4. nia.
Qed.

Lemma EncodeInt_eq lat lng :
  EncodeInt lat lng = interleave (encodeRange lat (f64 90)) (encodeRange lng (f64 180)).
Proof. reflexivity. Qed.

Lemma BoundingBox_of_encoded lat lng chars :
  1 <= chars <= 12 ->
  exists H, EncodeWithPrecision lat lng chars = Some H /\
            BoundingBox H =
            BoundingBoxIntWithPrecision (EncodeIntWithPrecision lat lng (5 * chars)) (5 * chars).
Proof.
  intros Hc.
  destruct (ConvertStringToInt_hash_symbols lat lng chars Hc) as (HL & HC).
  exists (hash_symbols (EncodeInt lat lng) 0 (Z.to_nat chars)).
  split; [apply EncodeWithPrecision_symbols; lia|].
  unfold ConvertStringToInt in HC.
  pose proof (f_equal fst HC) as HD. pose proof (f_equal snd HC) as HB.
  cbn [fst snd] in HD, HB.
  unfold BoundingBox. rewrite HD, HB.
  unfold EncodeIntWithPrecision, shr64. rewrite wrap64_small by lia.
  destruct (Z.leb_spec 64 (64 - 5 * chars)); [lia|reflexivity].
Qed.




(** ** The range codec: floor, wrap-around and exact decoding *)













(** ** Decoding and encoding again *)

(** C6 at the hash [hn0000000]: the box of the hash starts at latitude
    -56.25; [Round] divides by the float64 nearest to 10^-5, takes the
    ceiling and multiplies back, which gives the float64 just below
    -56.25, a point outside the box; encoding it at 9 characters
    gives [hjbpbpbpb], not the hash. The integer forms do the same. *)
Lemma Decode_then_encode_hn0000000 :
  Validate "hn0000000" = None /\ len "hn0000000" = 9 /\
  MinLat (BoundingBox "hn0000000") = S754_finite true 7916483719987200 (-47) /\
  val (MinLat (BoundingBox "hn0000000")) = - 225 * 2 ^ 1072 /\
  maxDecimalPower (fsub (MaxLat (BoundingBox "hn0000000"))
                        (MinLat (BoundingBox "hn0000000"))) = Pow10 (-5) /\
  Decode "hn0000000" = (S754_finite true 7916483719987201 (-47), S754_zero false) /\
  Contains (BoundingBox "hn0000000")
           (fst (Decode "hn0000000")) (snd (Decode "hn0000000")) = false /\
  EncodeWithPrecision (fst (Decode "hn0000000")) (snd (Decode "hn0000000")) 9 =
    Some "hjbpbpbpb"%string /\
  "hjbpbpbpb"%string <> "hn0000000"%string /\
  ConvertStringToInt "hn0000000" = (0x10a000000000, 45) /\
  DecodeIntWithPrecision 0x10a000000000 45 = Decode "hn0000000" /\
  EncodeIntWithPrecision (fst (DecodeIntWithPrecision 0x10a000000000 45))
                         (snd (DecodeIntWithPrecision 0x10a000000000 45)) 45 =
    0x108aaaaaaaaa /\
  0x108aaaaaaaaa <> 0x10a000000000.
Proof.
  repeat match goal with |- _ /\ _ => split end;
    match goal with
    | |- _ <> _ => discriminate
    | _ => vm_compute; reflexivity
    end.
Qed.

(** ** Cell corners: encoding undoes decoding *)

Lemma fexp_mono a b : a <= b -> fexp prec emax a <= fexp prec emax b.
Proof. rewrite !fexp_eq. lia. Qed.

Lemma new_location_exact m : new_location (Zpos m) 0 = loc_Exact.
Proof. unfold new_location. destruct (Z.even (Zpos m)); reflexivity. Qed.

Lemma shifted_dividend m s :
  0 <= s ->
  match s with
  | 0 => m
  | Zpos _ => Z.shiftl m s
  | Zneg _ => 0
  end = m * 2 ^ s.
Proof.
  intros Hs. destruct s as [|p|p]; [change (2 ^ 0) with 1; lia| |lia].
  now rewrite Z.shiftl_mul_pow2 by lia.
Qed.

(** Division is exact when the exact quotient is [K * 2^e] with
    [K < 2^53]. *)
Lemma fdiv_exact mx ex my ey K e :
  bounded prec emax mx ex = true -> bounded prec emax my ey = true ->
  Zpos mx * 2 ^ (ex + 1074) * 2 ^ 1074 =
    Zpos K * 2 ^ (e + 1074) * (Zpos my * 2 ^ (ey + 1074)) ->
  Zpos K < 2 ^ 53 -> -1074 <= e <= 971 -> -1074 <= ex - ey ->
  exists Q e'',
    fdiv (S754_finite false mx ex) (S754_finite false my ey) = S754_finite false Q e'' /\
    bounded prec emax Q e'' = true /\
    Zpos Q * 2 ^ (e'' + 1074) = Zpos K * 2 ^ (e + 1074).
Proof.
  intros Hx Hy Hv HK He Hxy.
  destruct (canonical_exists K e HK He) as (Q & e'' & Hb & Hle & Hge & HQ).
  exists Q, e''.
  apply bounded_spec in Hx as Bx. apply bounded_spec in Hy as By.
  apply bounded_spec in Hb as Bq.
  assert (HQv : Zpos Q * 2 ^ (e'' + 1074) = Zpos K * 2 ^ (e + 1074)).
  { rewrite HQ, <- Z.mul_assoc, <- (pow2_sum (e - e'') (e'' + 1074)) by lia.
    do 2 f_equal. lia. }
  split; [|split; [exact Hb|exact HQv]].
  set (d1 := Zpos (digits2_pos mx)) in *. set (d2 := Zpos (digits2_pos my)) in *.
  (* the quotient has at least d1 + ex - (d2 + ey) digits above its exponent *)
  assert (Hdig : d1 + ex - (d2 + ey) <= Zpos (digits2_pos Q) + e'').
  { assert (Hv2 : Zpos mx * 2 ^ (ex + 2148) = Zpos K * Zpos my * 2 ^ (e + ey + 2148)).
    { replace (ex + 2148) with ((ex + 1074) + 1074) by lia.
      replace (e + ey + 2148) with ((e + 1074) + (ey + 1074)) by lia.
      rewrite (pow2_sum (ex + 1074) 1074), (pow2_sum (e + 1074) (ey + 1074)) by lia.
      rewrite Z.mul_assoc, Hv. ring. }
    pose proof (Z.log2_mul_pow2 (Zpos mx) (ex + 2148) ltac:(lia) ltac:(lia)) as L1.
    pose proof (Z.log2_mul_pow2 (Zpos K * Zpos my) (e + ey + 2148) ltac:(lia) ltac:(lia)) as L2.
    pose proof (Z.log2_mul_above (Zpos K) (Zpos my) ltac:(lia) ltac:(lia)) as L3.
    rewrite Hv2 in L1.
    pose proof (digits_log2 mx). pose proof (digits_log2 my). pose proof (digits_log2 K).
    pose proof (digits_mul_pow2 Q K (e - e'') ltac:(lia) HQ).
    subst d1 d2. lia. }
  assert (Hcan : fexp prec emax (Zpos (digits2_pos Q) + e'') = e'')
    by (rewrite fexp_eq; lia).
  pose proof (fexp_mono _ _ Hdig) as Hm. rewrite Hcan in Hm.
  unfold fdiv. cbn [SFdiv]. unfold SFdiv_core_binary. cbn [Zdigits2]. fold d1 d2.
  set (e' := Z.min (fexp prec emax (d1 + ex - (d2 + ey))) (ex - ey)) in *.
  assert (He' : -1074 <= e' <= e'' /\ e' <= ex - ey).
  { subst e'. rewrite fexp_eq in *. lia. }
  set (s := ex - ey - e').
  assert (Hs : 0 <= s) by (subst s; lia).
  rewrite (shifted_dividend (Zpos mx) s Hs).
  assert (Hq : Zpos mx * 2 ^ s = Zpos K * 2 ^ (e - e') * Zpos my).
  { apply (Z.mul_cancel_r _ _ (2 ^ (ey + 1074) * 2 ^ (e' + 1074))).
    - pose proof (pow2_pos (ey + 1074)). pose proof (pow2_pos (e' + 1074)). nia.
    - transitivity (Zpos mx * (2 ^ s * 2 ^ (ey + 1074) * 2 ^ (e' + 1074))); [ring|].
      transitivity (Zpos K * Zpos my * (2 ^ (e - e') * 2 ^ (e' + 1074) * 2 ^ (ey + 1074)));
        [|ring].
      assert (A1 : 2 ^ s * 2 ^ (ey + 1074) * 2 ^ (e' + 1074) = 2 ^ (ex + 1074) * 2 ^ 1074).
      { rewrite <- (pow2_sum s (ey + 1074)), <- (pow2_sum (s + (ey + 1074)) (e' + 1074)),
          <- (pow2_sum (ex + 1074) 1074) by lia.
        f_equal. subst s. lia. }
      assert (A2 : 2 ^ (e - e') * 2 ^ (e' + 1074) = 2 ^ (e + 1074)).
      { rewrite <- (pow2_sum (e - e') (e' + 1074)) by lia. f_equal. lia. }
      rewrite A1, A2, Z.mul_assoc, Hv. ring. }
  assert (Pq : 0 < Zpos K * 2 ^ (e - e')).
  { apply Z.mul_pos_pos; [lia|]. apply pow2_pos. lia. }
  rewrite (div_eucl_exact _ _ (Zpos K * 2 ^ (e - e'))) by (lia || exact Hq).
  rewrite new_location_exact. cbn [xorb].
  destruct (Zpos K * 2 ^ (e - e')) as [|P|P] eqn:EP; try lia.
  rewrite (bra_exact false P Q e' (e'' - e') ltac:(lia)).
  - replace (e' + (e'' - e')) with e'' by lia.
    destruct (Z.leb_spec e'' 971); [reflexivity|lia].
  - rewrite <- EP, HQ, <- Z.mul_assoc, <- (pow2_sum (e - e'') (e'' - e')) by lia.
    replace (e - e'' + (e'' - e')) with (e - e') by lia. reflexivity.
  - replace (e' + (e'' - e')) with e'' by lia. exact Hcan.
Qed.

Lemma finite_val_zero f :
  valid f = true -> is_finite f = true -> val f = 0 -> exists s, f = S754_zero s.
Proof.
  intros V F E. destruct f as [s|s| |s m e]; try discriminate; [eauto|].
  pose proof (valid_exponent _ _ _ V).
  pose proof (pow2_pos (e + 1074) ltac:(lia)).
  cbn [val] in E. rewrite signed_abs in E. destruct s; nia.
Qed.

Lemma finite_val_pos f :
  valid f = true -> is_finite f = true -> 0 < val f ->
  exists m e, f = S754_finite false m e /\ bounded prec emax m e = true.
Proof.
  intros V F E. destruct f as [s|s| |s m e]; try discriminate.
  cbn [val] in E.
  pose proof (valid_exponent _ _ _ V).
  pose proof (pow2_pos (e + 1074) ltac:(lia)).
  rewrite signed_abs in E. destruct s; [nia|]. exists m, e. split; [reflexivity|exact V].
Qed.

(** The integer part of a float whose value is an integer. *)
Lemma trunc_integer f n :
  valid f = true -> is_finite f = true -> 0 <= n -> val f = n * 2 ^ 1074 ->
  trunc f = Some n.
Proof.
  intros V F Hn E. destruct f as [s|s| |s m e]; try discriminate.
  - cbn [val] in E. cbn [trunc]. f_equal. lia.
  - pose proof (valid_exponent _ _ _ V) as He.
    cbn [val] in E. cbn [trunc]. f_equal.
    assert (P : 0 < 2 ^ (e + 1074)) by (apply pow2_pos; lia).
    rewrite signed_abs in E.
    destruct s; [exfalso; nia|]. rewrite Z.mul_1_l in E.
    destruct (Z.le_gt_cases 0 e) as [Hpos|Hneg].
    + rewrite Z.shiftl_mul_pow2 by lia.
      rewrite (pow2_sum e 1074) in E by lia. nia.
    + rewrite Z.shiftl_div_pow2 by lia.
      symmetry. apply Z.div_unique_exact; [pose proof (pow2_pos (- e)); lia|].
      apply (Z.mul_cancel_r _ _ (2 ^ (e + 1074))); [lia|].
      assert (A : 2 ^ 1074 = 2 ^ (- e) * 2 ^ (e + 1074)).
      { rewrite <- (pow2_sum (- e) (e + 1074)) by lia. f_equal. lia. }
      rewrite E, A. ring.
Qed.

(** The common tail of the two axes: the sum [a = x + r] has the exact
    value [c X / 2^32] and the divisor [2 r] the exact value [c]. *)
Lemma encode_exact a (m2 : positive) (e2 X : Z) :
  valid a = true -> is_finite a = true ->
  bounded prec emax m2 e2 = true -> e2 <= 0 ->
  0 <= X < 2 ^ 32 ->
  val a * 2 ^ 32 = X * (Zpos m2 * 2 ^ (e2 + 1074)) ->
  uint32_of_float (fmul (fdiv a (S754_finite false m2 e2)) exp232) = X.
Proof.
  intros Va Fa Hb He2 HX Hv.
  apply bounded_spec in Hb as B2.
  assert (P2 : 0 < Zpos m2 * 2 ^ (e2 + 1074)).
  { apply Z.mul_pos_pos; [lia|]. apply pow2_pos. lia. }
  destruct (Z.eq_dec X 0) as [->|Hne].
  - destruct (finite_val_zero a Va Fa ltac:(lia)) as (s & ->).
    destruct s; reflexivity.
  - destruct (finite_val_pos a Va Fa ltac:(nia)) as (ma & ea & -> & Ba).
    cbn [val signed] in Hv.
    destruct X as [|Xp|Xp]; try lia.
    destruct (fdiv_exact ma ea m2 e2 Xp (-32) Ba Hb) as (Q & e'' & -> & Bq & Eq).
    { change (-32 + 1074) with 1042.
      transitivity (Zpos ma * 2 ^ (ea + 1074) * 2 ^ 32 * 2 ^ 1042).
      - change (2 ^ 1074) with (2 ^ 32 * 2 ^ 1042). ring.
      - rewrite Hv. ring. }
    { change (2 ^ 53) with (2 ^ 21 * 2 ^ 32). lia. }
    { lia. }
    { apply bounded_spec in Ba. lia. }
    change (-32 + 1074) with 1042 in Eq.
    destruct (f64_val (2 ^ 32) ltac:(lia)) as (Ve & Fe & Ee). fold exp232 in Ve, Fe, Ee.
    destruct (fmul_val (S754_finite false Q e'') exp232 (Zpos Xp) 0 Bq Ve eq_refl Fe)
      as (Vf & Ff & Ef).
    { cbn [val signed]. rewrite Eq, Ee. change (0 + 1074) with 1074.
      change (2 ^ 1074) with (2 ^ 32 * 2 ^ 1042) at 2. ring. }
    { change (2 ^ 53) with (2 ^ 21 * 2 ^ 32). lia. }
    { lia. }
    change (0 + 1074) with 1074 in Ef.
    unfold uint32_of_float, int64_of_float.
    rewrite (trunc_integer _ (Zpos Xp) Vf Ff ltac:(lia) Ef).
    unfold int64_of.
    destruct (Z.leb_spec (- 2 ^ 63) (Zpos Xp)); [|lia].
    destruct (Z.ltb_spec (Zpos Xp) (2 ^ 63)); [|lia].
    cbn [andb]. unfold wrap32. apply Z.mod_small. lia.
Qed.

Lemma encodeRange_decodeRange_90 X :
  0 <= X < 2 ^ 32 -> encodeRange (decodeRange X (f64 90)) (f64 90) = X.
Proof.
  intros HX. destruct (decodeRange_90_val X HX) as (V & F & E).
  destruct (f64_val 90 ltac:(lia)) as (V90 & F90 & E90).
  destruct (fadd_val (decodeRange X (f64 90)) (f64 90) (45 * X) (-30) V V90 F F90)
    as (Va & Fa & Ea).
  { rewrite E, E90. change (-30 + 1074) with 1044.
    change (2 ^ 1074) with (2 ^ 30 * 2 ^ 1044). change (2 ^ 31) with (2 * 2 ^ 30). ring. }
  { change (2 ^ 53) with (2 ^ 21 * 2 ^ 32). lia. }
  { lia. }
  unfold encodeRange. change (fmul (f64 2) (f64 90)) with (f64 180).
  rewrite f64_180_eq.
  apply encode_exact; [assumption|assumption|reflexivity|lia|assumption|].
  rewrite Ea, E, E90. change (-45 + 1074) with 1029.
  change (Zpos 6333186975989760) with (45 * 2 ^ 47).
  change (2 ^ 1074) with (2 ^ 30 * 2 ^ 1044). change (2 ^ 31) with (2 * 2 ^ 30).
  change (2 ^ 1044) with (2 ^ 15 * 2 ^ 1029). change (2 ^ 47) with (2 ^ 15 * 2 ^ 32).
  ring.
Qed.

Lemma encodeRange_decodeRange_180 Y :
  0 <= Y < 2 ^ 32 -> encodeRange (decodeRange Y (f64 180)) (f64 180) = Y.
Proof.
  intros HY. destruct (decodeRange_180_val Y HY) as (V & F & E).
  destruct (f64_val 180 ltac:(lia)) as (V180 & F180 & E180).
  destruct (fadd_val (decodeRange Y (f64 180)) (f64 180) (45 * Y) (-29) V V180 F F180)
    as (Va & Fa & Ea).
  { rewrite E, E180. change (-29 + 1074) with 1045.
    change (2 ^ 1074) with (2 ^ 29 * 2 ^ 1045). change (2 ^ 31) with (4 * 2 ^ 29). ring. }
  { change (2 ^ 53) with (2 ^ 21 * 2 ^ 32). lia. }
  { lia. }
  unfold encodeRange. change (fmul (f64 2) (f64 180)) with (f64 360).
  rewrite f64_360_eq.
  apply encode_exact; [assumption|assumption|reflexivity|lia|assumption|].
  rewrite Ea, E, E180. change (-44 + 1074) with 1030.
  change (Zpos 6333186975989760) with (45 * 2 ^ 47).
  change (2 ^ 1074) with (2 ^ 29 * 2 ^ 1045). change (2 ^ 31) with (4 * 2 ^ 29).
  change (2 ^ 1045) with (2 ^ 15 * 2 ^ 1030). change (2 ^ 47) with (2 ^ 15 * 2 ^ 32).
  ring.
Qed.

(** Every cell corner is coded by its own axis codes and lies in the
    box of its hash at every precision: the condition of
    [Contains_coarser] holds on the whole grid of corners. *)
Lemma Contains_cell_corner X Y bits chars :
  0 <= X < 2 ^ 32 -> 0 <= Y < 2 ^ 32 -> 1 <= bits <= 64 -> 1 <= chars <= 12 ->
  let lat := decodeRange X (f64 90) in
  let lng := decodeRange Y (f64 180) in
  EncodeInt lat lng = interleave X Y /\
  Contains (BoundingBoxInt (EncodeInt lat lng)) lat lng = true /\
  Contains (BoundingBoxIntWithPrecision (EncodeIntWithPrecision lat lng bits) bits)
           lat lng = true /\
  exists H, EncodeWithPrecision lat lng chars = Some H /\
            Contains (BoundingBox H) lat lng = true.
Proof.
  intros HX HY Hb Hc lat lng.
  destruct (decodeRange_90_val X HX) as (V1 & F1 & E1).
  destruct (decodeRange_180_val Y HY) as (V2 & F2 & E2).
  fold lat in V1, F1, E1. fold lng in V2, F2, E2.
  assert (HE : EncodeInt lat lng = interleave X Y).
  { rewrite EncodeInt_eq. subst lat lng.
    now rewrite encodeRange_decodeRange_90, encodeRange_decodeRange_180. }
  assert (NF : forall f, is_finite f = true -> is_nan f = false)
    by (intros [] ?; (reflexivity || discriminate)).
  assert (H64 : Contains (BoundingBoxIntWithPrecision (interleave X Y) 64) lat lng = true).
  { assert (E64 : interleave X Y = shr64 (interleave X Y) (wrap64 (64 - 64))).
    { unfold shr64. change (wrap64 (64 - 64)) with 0. change (64 <=? 0) with false.
      cbv iota. now rewrite Z.shiftr_0_r. }
    rewrite E64.
    pose proof (box_values X Y 64 HX HY ltac:(lia)) as B64. cbv zeta in B64.
    change (32 - 64 / 2) with 0 in B64. change (32 - (64 - 64 / 2)) with 0 in B64.
    rewrite !clear_low_0 in B64. change (2 ^ 0) with 1 in B64.
    destruct B64 as ((W1 & G1 & D1) & (W2 & G2 & D2) & (W3 & G3 & D3) & (W4 & G4 & D4)).
    assert (P1 : 0 < 2 ^ 1044) by (apply pow2_pos; lia).
    assert (P2 : 0 < 2 ^ 1045) by (apply pow2_pos; lia).
    apply Contains_spec. repeat split; apply fle_val; try assumption;
      (split; [auto|split; [auto|]]).
    - rewrite D1, E1. lia.
    - rewrite D2, E1. nia.
    - rewrite D3, E2. lia.
    - rewrite D4, E2. nia. }
  split; [exact HE|]. split; [unfold BoundingBoxInt; now rewrite HE|].
  split.
  - unfold EncodeIntWithPrecision. rewrite HE. now apply Contains_coarser.
  - destruct (BoundingBox_of_encoded lat lng chars Hc) as (H & HH & HB).
    exists H. split; [exact HH|]. rewrite HB.
    unfold EncodeIntWithPrecision. rewrite HE.
    apply Contains_coarser; try assumption; lia.
Qed.
